(** * hyperscan/common.go: database descriptors and (de)serialization wrappers

    A shallow embedding of [hyperscan/common.go] of the gohs binding:
    - [Regexp]: the fragment of Go's [regexp] package that [regexInfo] uses
      (a backtracking matcher with capture groups, leftmost-first), with a
      relational semantics it is proved sound and complete for;
    - [DbInfo] with [String], [Version] and [Mode];
    - the database wrappers ([UnmarshalDatabase], [Marshal], [Unmarshal], ...)
      as state-passing code over the Go heap and the state of the C library. *)

From Stdlib Require Import Ascii String List Bool Arith ZArith NArith Lia.
From stdpp Require Import gmap.
Import ListNotations.

Local Open Scope list_scope.
Local Open Scope nat_scope.

(** Go strings are byte sequences.  Every literal and class of [regexInfo] is
    ASCII, so a byte outside ASCII matches nothing in it, whether it stands
    alone or inside a multi-byte rune: matching byte by byte agrees with Go's
    rune by rune matching for this pattern. *)
Definition gostring := list ascii.

(** A Go string literal. *)
Definition lit (s : string) : gostring := list_ascii_of_string s.

(* ================================================================== *)
(** ** The fragment of Go's [regexp] that the package uses *)
(* ================================================================== *)

Module Regexp.

(** Perl character classes, as RE2 and Go define them (ASCII only). *)
Definition between (lo hi : nat) (c : ascii) : bool :=
  let n := nat_of_ascii c in (lo <=? n) && (n <=? hi).

(** [\d] is [[0-9]]. *)
Definition is_digit (c : ascii) : bool := between 48 57 c.

(** [\w] is [[0-9A-Za-z_]]. *)
Definition is_word (c : ascii) : bool :=
  between 48 57 c || between 65 90 c || between 97 122 c || (nat_of_ascii c =? 95).

(** [\s] is [[\t\n\f\r ]]. *)
Definition is_space (c : ascii) : bool :=
  let n := nat_of_ascii c in
  (n =? 9) || (n =? 10) || (n =? 12) || (n =? 13) || (n =? 32).

(** [[\w\s]]. *)
Definition is_word_or_space (c : ascii) : bool := is_word c || is_space c.

(** Syntax trees of patterns.  Repetitions are the greedy ones. *)
Inductive re : Type :=
| Eps                          (* the empty pattern *)
| Chr (c : ascii)              (* a literal character *)
| Cls (p : ascii -> bool)      (* a character class *)
| Seq (a b : re)               (* ab *)
| Alt (a b : re)               (* a|b *)
| Opt (a : re)                 (* a? *)
| Star (a : re)                (* a* *)
| Plus (a : re)                (* a+ *)
| Cap (i : nat) (a : re)       (* (a), the i-th capturing group *)
| Bot                          (* ^ without the m flag: beginning of text *)
| Eot.                         (* $ without the m flag: end of text *)

(** A run of literal characters. *)
Fixpoint str (l : gostring) : re :=
  match l with
  | [] => Eps
  | c :: l' => Seq (Chr c) (str l')
  end.

(** Number of capturing groups, Go's [NumSubexp]. *)
Fixpoint NumSubexp (r : re) : nat :=
  match r with
  | Eps | Chr _ | Cls _ | Bot | Eot => 0
  | Seq a b | Alt a b => NumSubexp a + NumSubexp b
  | Opt a | Star a | Plus a => NumSubexp a
  | Cap _ a => S (NumSubexp a)
  end.

(** The state of a match attempt: the offset reached in the text, the text
    from there on, and what each group captured so far ([None]: the group
    did not take part, Go's index -1). *)
Record state : Type := State {
  pos : nat;
  rest : gostring;
  caps : list (option gostring)
}.

Definition advance (n : nat) (st : state) : state :=
  {| pos := pos st + n; rest := skipn n (rest st); caps := caps st |}.

Definition set_cap (i : nat) (w : gostring) (st : state) : state :=
  {| pos := pos st; rest := rest st; caps := <[i := Some w]> (caps st) |}.

(** The text consumed between two states of one attempt. *)
Definition consumed (st st' : state) : gostring :=
  firstn (length (rest st) - length (rest st')) (rest st).

Definition orelse {A} (x y : option A) : option A :=
  match x with Some v => Some v | None => y end.

(** Greedy iteration of [body]: at most [n] more rounds, each of which has
    to consume something; the alternative of stopping comes second. *)
Fixpoint iter (body : state -> (state -> option state) -> option state)
    (n : nat) (st : state) (k : state -> option state) : option state :=
  match n with
  | 0 => k st
  | S n' =>
      orelse
        (body st (fun st' =>
           if length (rest st') <? length (rest st) then iter body n' st' k
           else None))
        (k st)
  end.

(** The backtracking matcher: [bt r st k] matches [r] from [st] and hands
    each way of doing so to the continuation [k], in the order of
    preference of Go's (Perl's) leftmost-first rule, until [k] accepts. *)
Fixpoint bt (r : re) (st : state) (k : state -> option state) {struct r}
    : option state :=
  match r with
  | Eps => k st
  | Chr c =>
      match rest st with
      | x :: _ => if Ascii.eqb x c then k (advance 1 st) else None
      | [] => None
      end
  | Cls p =>
      match rest st with
      | x :: _ => if p x then k (advance 1 st) else None
      | [] => None
      end
  | Seq a b => bt a st (fun st' => bt b st' k)
  | Alt a b => orelse (bt a st k) (bt b st k)
  | Opt a => orelse (bt a st k) (k st)
  | Star a => iter (bt a) (length (rest st)) st k
  | Plus a => bt a st (fun st' => iter (bt a) (length (rest st')) st' k)
  | Cap i a => bt a st (fun st' => k (set_cap i (consumed st st') st'))
  | Bot => if pos st =? 0 then k st else None
  | Eot => match rest st with [] => k st | _ :: _ => None end
  end.

(** The state an attempt starts in at offset [p]: no group has matched. *)
Definition start (r : re) (p : nat) (s : gostring) : state :=
  {| pos := p; rest := s; caps := replicate (S (NumSubexp r)) None |}.

(** The unanchored search: the leftmost offset at which the pattern
    matches.  Group 0 is the whole match. *)
Fixpoint search (r : re) (p : nat) (s : gostring) : option state :=
  match bt (Cap 0 r) (start r p s) Some with
  | Some st => Some st
  | None =>
      match s with
      | [] => None
      | _ :: s' => search r (S p) s'
      end
  end.

(** [FindStringSubmatch]: the text of the leftmost match and of each group
    (the empty string for a group that did not take part), or nil (the empty
    slice) when there is no match. *)
Definition FindStringSubmatch (r : re) (s : gostring) : list gostring :=
  match search r 0 s with
  | Some st => map (fun c => match c with Some w => w | None => [] end) (caps st)
  | None => []
  end.

(** [MatchString]. *)
Definition MatchString (r : re) (s : gostring) : bool :=
  match search r 0 s with Some _ => true | None => false end.

(** The declarative reading of a pattern: [run r st st'] when [r] can take
    the attempt from [st] to [st'].  A round of a repetition consumes
    something. *)
Inductive run : re -> state -> state -> Prop :=
| run_eps st : run Eps st st
| run_chr c st tl : rest st = c :: tl -> run (Chr c) st (advance 1 st)
| run_cls p st x tl :
    rest st = x :: tl -> p x = true -> run (Cls p) st (advance 1 st)
| run_seq a b st1 st2 st3 :
    run a st1 st2 -> run b st2 st3 -> run (Seq a b) st1 st3
| run_alt_l a b st st' : run a st st' -> run (Alt a b) st st'
| run_alt_r a b st st' : run b st st' -> run (Alt a b) st st'
| run_opt_some a st st' : run a st st' -> run (Opt a) st st'
| run_opt_none a st : run (Opt a) st st
| run_star_nil a st : run (Star a) st st
| run_star_cons a st1 st2 st3 :
    run a st1 st2 -> length (rest st2) < length (rest st1) ->
    run (Star a) st2 st3 -> run (Star a) st1 st3
| run_plus a st1 st2 st3 :
    run a st1 st2 -> run (Star a) st2 st3 -> run (Plus a) st1 st3
| run_cap i a st st' :
    run a st st' -> run (Cap i a) st (set_cap i (consumed st st') st')
| run_bot st : pos st = 0 -> run Bot st st
| run_eot st : rest st = [] -> run Eot st st.

(** The state reached from [st] once [w] is consumed and [tl] is left. *)
Definition after (st : state) (w tl : gostring) : state :=
  {| pos := pos st + length w; rest := tl; caps := caps st |}.

(** [spans r P]: the runs of [r] are those that consume a string of [P]
    and touch no group. *)
Definition spans (r : re) (P : gostring -> Prop) : Prop :=
  forall st st', run r st st' <->
    exists w tl, P w /\ rest st = w ++ tl /\ st' = after st w tl.

End Regexp.

(* ================================================================== *)
(** ** Go errors *)
(* ================================================================== *)

Module Errors.

(** Error values: the sentinel errors of the binding (an [HsError] code) and
    what [fmt.Errorf] builds from a format ending in [%w], which wraps its
    operand.  A wrapped error is represented by its contents, not by the
    pointer Go compares: [error_eqb] agrees with Go's [==] on an error and
    itself, on an error and one it wraps, and whenever a side is a sentinel,
    which is where it is used; two wrapped errors built apart with the same
    contents are equal here and are distinct pointers in Go. *)
Inductive error : Type :=
| HsError (code : Z)
| Errorf (prefix : string) (wrapped : error).

Fixpoint error_eqb (e1 e2 : error) : bool :=
  match e1, e2 with
  | HsError c1, HsError c2 => Z.eqb c1 c2
  | Errorf p1 w1, Errorf p2 w2 => String.eqb p1 p2 && error_eqb w1 w2
  | _, _ => false
  end.

(** [errors.Is]: the error or one it wraps, at any depth, is the target. *)
Fixpoint Is (err target : error) : bool :=
  error_eqb err target
  || match err with
     | Errorf _ w => Is w target
     | HsError _ => false
     end.

(** [Error()]: the message text. *)
Fixpoint Error (hs_text : Z -> string) (e : error) : string :=
  match e with
  | HsError c => hs_text c
  | Errorf p w => (p ++ Error hs_text w)%string
  end.

End Errors.

Import Regexp Errors.

(* ================================================================== *)
(** ** [DbInfo] *)
(* ================================================================== *)

(** [const infoMatches = 4] *)
Definition infoMatches : nat := 4.

(** [regexp.MustCompile(`^Version: (\d+\.\d+\.\d+) Features: ([\w\s]+)? Mode: (\w+)$`)] *)
Definition regexInfo : re :=
  Seq Bot
  (Seq (str (lit "Version: "))
  (Seq (Cap 1 (Seq (Plus (Cls is_digit))
              (Seq (Chr ".")
              (Seq (Plus (Cls is_digit))
              (Seq (Chr ".")
                   (Plus (Cls is_digit)))))))
  (Seq (str (lit " Features: "))
  (Seq (Opt (Cap 2 (Plus (Cls is_word_or_space))))
  (Seq (str (lit " Mode: "))
  (Seq (Cap 3 (Plus (Cls is_word)))
       Eot)))))).

(** What the optional second group leaves in the captures: it takes part
    only when there is something between the two separators. *)
Definition features_caps (f : gostring) (c : list (option gostring))
  : list (option gostring) :=
  match f with [] => c | _ :: _ => <[2 := Some f]> c end.

(** [type DbInfo string] *)
Definition DbInfo := gostring.

(** [func (i DbInfo) String() string { return string(i) }] *)
Definition String_ (i : DbInfo) : gostring := i.

(** [ModeFlag] is declared in another file of the package; it is an
    unsigned integer type ([Mode] returns the constant 0 of it). *)
Definition ModeFlag := N.

Section DbInfo.

(** The sentinel [ErrInvalid] and the function [ParseModeFlag] are declared
    in other files of the package. *)
Variable ErrInvalid : error.
Variable ParseModeFlag : gostring -> ModeFlag * option error.

(** [func (i DbInfo) Version() (string, error)] *)
Definition Version (i : DbInfo) : gostring * option error :=
  let matched := FindStringSubmatch regexInfo i in
  if negb (length matched =? infoMatches) then
    ([], Some (Errorf "database info, " ErrInvalid))
  else
    (nth 1 matched [], None).

(** [func (i DbInfo) Mode() (ModeFlag, error)] *)
Definition Mode (i : DbInfo) : ModeFlag * option error :=
  let matched := FindStringSubmatch regexInfo i in
  if negb (length matched =? infoMatches) then
    (0%N, Some (Errorf "database info, " ErrInvalid))
  else
    ParseModeFlag (nth 3 matched []).

End DbInfo.

(* ================================================================== *)
(** ** The descriptor grammar, as the specification words it *)
(* ================================================================== *)

Module Grammar.

(** Regular expressions without groups or anchors, and the language of one:
    the strings it matches as a whole. *)
Inductive pat : Type :=
| PEps
| PChr (c : ascii)
| PCls (p : ascii -> bool)
| PSeq (a b : pat)
| PStar (a : pat)
| PPlus (a : pat).

Fixpoint pstr (l : gostring) : pat :=
  match l with
  | [] => PEps
  | c :: l' => PSeq (PChr c) (pstr l')
  end.

Inductive lang : pat -> gostring -> Prop :=
| lang_eps : lang PEps []
| lang_chr c : lang (PChr c) [c]
| lang_cls p c : p c = true -> lang (PCls p) [c]
| lang_seq a b u v : lang a u -> lang b v -> lang (PSeq a b) (u ++ v)
| lang_star_nil a : lang (PStar a) []
| lang_star_cons a u v : lang a u -> lang (PStar a) v -> lang (PStar a) (u ++ v)
| lang_plus a u v : lang a u -> lang (PStar a) v -> lang (PPlus a) (u ++ v).

(** [Version: \d+\.\d+\.\d+ Features: [\w\s]* Mode: \w+], the grammar of the
    external-interface section. *)
Definition specInfo : pat :=
  PSeq (pstr (lit "Version: "))
  (PSeq (PPlus (PCls is_digit))
  (PSeq (PChr ".")
  (PSeq (PPlus (PCls is_digit))
  (PSeq (PChr ".")
  (PSeq (PPlus (PCls is_digit))
  (PSeq (pstr (lit " Features: "))
  (PSeq (PStar (PCls is_word_or_space))
  (PSeq (pstr (lit " Mode: "))
        (PPlus (PCls is_word)))))))))).

(** The three fields, spelled out: [Version: X.Y.Z Features: <words>? Mode: <word>]. *)
Definition digits (w : gostring) : Prop :=
  w <> [] /\ forallb is_digit w = true.

Definition semver (v : gostring) : Prop :=
  exists x y z, v = x ++ "."%char :: y ++ "."%char :: z
                /\ digits x /\ digits y /\ digits z.

(** The characters of a version: digits and dots. *)
Definition digit_or_dot (c : ascii) : bool := is_digit c || Ascii.eqb c ".".

Definition words (f : gostring) : Prop := forallb is_word_or_space f = true.

Definition word (m : gostring) : Prop := m <> [] /\ forallb is_word m = true.

Definition descriptor (s v f m : gostring) : Prop :=
  s = lit "Version: " ++ v ++ lit " Features: " ++ f ++ lit " Mode: " ++ m
  /\ semver v /\ words f /\ word m.

Definition well_formed (s : gostring) : Prop :=
  exists v f m, descriptor s v f m.

End Grammar.

Import Grammar.

(* ================================================================== *)
(** ** The database wrappers *)
(* ================================================================== *)

(** Go's [[]byte]. *)
Definition bytes := list Byte.byte.

(** The cgo layer, declared in other files of the package.  [hsDatabase] is
    the handle of a database of the C library; each function reads and
    writes the memory of the C library, [hs_mem], and has no access to the
    objects of the Go heap. *)
Class HsApi : Type := {
  hsDatabase : Type;
  hs_mem : Type;
  hsDeserializeDatabase :
    bytes -> hs_mem -> (hsDatabase * option error) * hs_mem;
  hsDeserializeDatabaseAt :
    bytes -> hsDatabase -> hs_mem -> option error * hs_mem;
  hsSerializeDatabase :
    hsDatabase -> hs_mem -> (bytes * option error) * hs_mem;
  hsDatabaseInfo :
    hsDatabase -> hs_mem -> (gostring * option error) * hs_mem;
  hsDatabaseSize :
    hsDatabase -> hs_mem -> (Z * option error) * hs_mem;
  hsFreeDatabase :
    hsDatabase -> hs_mem -> option error * hs_mem;
  hsSerializedDatabaseSize :
    bytes -> hs_mem -> (Z * option error) * hs_mem;
  hsSerializedDatabaseInfo :
    bytes -> hs_mem -> (gostring * option error) * hs_mem
}.

(** Addresses of [baseDatabase] objects in the Go heap. *)
Definition loc := positive.

(** The scanner and matcher layers that the typed databases embed are
    declared in other files of the package; their constructors wrap the
    pointer they are given. *)
Class Layers : Type := {
  blockScanner : Type;
  newBlockScanner : loc -> blockScanner;
  blockMatcher : Type;
  newBlockMatcher : blockScanner -> blockMatcher;
  streamScanner : Type;
  newStreamScanner : loc -> streamScanner;
  streamMatcher : Type;
  newStreamMatcher : streamScanner -> streamMatcher;
  vectoredScanner : Type;
  newVectoredScanner : loc -> vectoredScanner;
  vectoredMatcher : Type;
  newVectoredMatcher : vectoredScanner -> vectoredMatcher
}.

Module Wrappers.
Section Wrappers.

Context {api : HsApi} {layers : Layers}.

(** [type baseDatabase struct { db hsDatabase }] *)
Record baseDatabase : Type := { db : hsDatabase }.

(** What the program runs in: the [baseDatabase] objects allocated so far,
    by address, and the memory of the C library. *)
Record world : Type := World {
  heap : gmap loc baseDatabase;
  hs : hs_mem
}.

(** Code that reads and writes the world; [None] is a run-time panic (a
    dereference of a pointer to no object). *)
Definition M (A : Type) : Type := world -> option (A * world).

Definition ret {A} (a : A) : M A := fun w => Some (a, w).

Definition bind {A B} (m : M A) (k : A -> M B) : M B :=
  fun w => match m w with
           | Some (a, w') => k a w'
           | None => None
           end.

(** [&baseDatabase{...}]: a new object at an address not in use. *)
Definition alloc (b : baseDatabase) : M loc :=
  fun w =>
    let l := fresh (dom (heap w)) in
    Some (l, {| heap := <[l := b]> (heap w); hs := hs w |}).

(** [*d] *)
Definition load (d : loc) : M baseDatabase :=
  fun w => match heap w !! d with
           | Some b => Some (b, w)
           | None => None
           end.

(** A call into the C layer. *)
Definition foreign {A} (f : hs_mem -> A * hs_mem) : M A :=
  fun w => let (a, m) := f (hs w) in Some (a, {| heap := heap w; hs := m |}).

(** [func newBaseDatabase(db hsDatabase) *baseDatabase] *)
Definition newBaseDatabase (h : hsDatabase) : M loc := alloc {| db := h |}.

(** [func UnmarshalDatabase(data []byte) (Database, error)]; the interface
    value is nil ([None]) or a pointer to a [baseDatabase]. *)
Definition UnmarshalDatabase (data : bytes) : M (option loc * option error) :=
  bind (foreign (hsDeserializeDatabase data)) (fun '(h, err) =>
  match err with
  | Some e => ret (None, Some e)
  | None => bind (alloc {| db := h |}) (fun d => ret (Some d, None))
  end).

(** [type blockDatabase struct { *blockMatcher }].  The typed databases are
    represented by their contents: the world keeps the [baseDatabase]
    objects only, so the address of a [&blockDatabase{...}] (and of the
    scanner and matcher it embeds) is not modelled, and nothing here speaks
    of the identity of two typed databases. *)
Record blockDatabase : Type := { block_matcher : blockMatcher }.

(** [func newBlockDatabase(db hsDatabase) *blockDatabase] *)
Definition newBlockDatabase (h : hsDatabase) : M blockDatabase :=
  bind (newBaseDatabase h) (fun b =>
  ret {| block_matcher := newBlockMatcher (newBlockScanner b) |}).

(** [type streamDatabase struct { *streamMatcher }] *)
Record streamDatabase : Type := { stream_matcher : streamMatcher }.

(** [func newStreamDatabase(db hsDatabase) *streamDatabase] *)
Definition newStreamDatabase (h : hsDatabase) : M streamDatabase :=
  bind (newBaseDatabase h) (fun b =>
  ret {| stream_matcher := newStreamMatcher (newStreamScanner b) |}).

(** [type vectoredDatabase struct { *vectoredMatcher }] *)
Record vectoredDatabase : Type := { vectored_matcher : vectoredMatcher }.

(** [func newVectoredDatabase(db hsDatabase) *vectoredDatabase] *)
Definition newVectoredDatabase (h : hsDatabase) : M vectoredDatabase :=
  bind (newBaseDatabase h) (fun b =>
  ret {| vectored_matcher := newVectoredMatcher (newVectoredScanner b) |}).

(** [func UnmarshalBlockDatabase(data []byte) (BlockDatabase, error)] *)
Definition UnmarshalBlockDatabase (data : bytes)
  : M (option blockDatabase * option error) :=
  bind (foreign (hsDeserializeDatabase data)) (fun '(h, err) =>
  match err with
  | Some e => ret (None, Some e)
  | None => bind (newBlockDatabase h) (fun d => ret (Some d, None))
  end).

(** [func UnmarshalStreamDatabase(data []byte) (StreamDatabase, error)] *)
Definition UnmarshalStreamDatabase (data : bytes)
  : M (option streamDatabase * option error) :=
  bind (foreign (hsDeserializeDatabase data)) (fun '(h, err) =>
  match err with
  | Some e => ret (None, Some e)
  | None => bind (newStreamDatabase h) (fun d => ret (Some d, None))
  end).

(** [func UnmarshalVectoredDatabase(data []byte) (VectoredDatabase, error)] *)
Definition UnmarshalVectoredDatabase (data : bytes)
  : M (option vectoredDatabase * option error) :=
  bind (foreign (hsDeserializeDatabase data)) (fun '(h, err) =>
  match err with
  | Some e => ret (None, Some e)
  | None => bind (newVectoredDatabase h) (fun d => ret (Some d, None))
  end).

(** [func SerializedDatabaseSize(data []byte) (int, error)] *)
Definition SerializedDatabaseSize (data : bytes) : M (Z * option error) :=
  foreign (hsSerializedDatabaseSize data).

(** [func SerializedDatabaseInfo(data []byte) (DbInfo, error)] *)
Definition SerializedDatabaseInfo (data : bytes) : M (DbInfo * option error) :=
  bind (foreign (hsSerializedDatabaseInfo data)) (fun '(i, err) =>
  ret (i, err)).

(** [func (d *baseDatabase) Db() hsDatabase { return d.db }] *)
Definition Db (d : loc) : M hsDatabase :=
  bind (load d) (fun b => ret (db b)).

(** [func (d *baseDatabase) Size() (int, error)] *)
Definition Size (d : loc) : M (Z * option error) :=
  bind (load d) (fun b => foreign (hsDatabaseSize (db b))).

(** [func (d *baseDatabase) Info() (DbInfo, error)] *)
Definition Info (d : loc) : M (DbInfo * option error) :=
  bind (load d) (fun b =>
  bind (foreign (hsDatabaseInfo (db b))) (fun '(i, err) =>
  ret (i, err))).

(** [func (d *baseDatabase) Close() error] *)
Definition Close (d : loc) : M (option error) :=
  bind (load d) (fun b => foreign (hsFreeDatabase (db b))).

(** [func (d *baseDatabase) Marshal() ([]byte, error)] *)
Definition Marshal (d : loc) : M (bytes * option error) :=
  bind (load d) (fun b => foreign (hsSerializeDatabase (db b))).

(** [func (d *baseDatabase) Unmarshal(data []byte) error] *)
Definition Unmarshal (d : loc) (data : bytes) : M (option error) :=
  bind (load d) (fun b => foreign (hsDeserializeDatabaseAt data (db b))).

(** The result [r] of a constructor run on [data] in [w] is atomic: it is a
    database and no error, or an error, no database and the Go heap as it
    was; and the error is the one of the C layer. *)
Definition atomic {D : Type} (r : option (option D * option error * world))
    (data : bytes) (w : world) : Prop :=
  exists d err w', r = Some (d, err, w')
    /\ (d <> None <-> err = None)
    /\ err = snd (fst (hsDeserializeDatabase data (hs w)))
    /\ hs w' = snd (hsDeserializeDatabase data (hs w))
    /\ (err <> None -> d = None /\ heap w' = heap w).

End Wrappers.
End Wrappers.

Import Wrappers.


(* ================================================================== *)
(** ** The C layer as the specification describes it *)
(* ================================================================== *)

Module SpecModel.
Section SpecModel.

(** The compiled form of a database is opaque (section 1): [artifact] stands
    for it, with its descriptive info, its size and its serialized form.
    [decode] reconstructs an artifact from bytes or says why not (Corrupt,
    Invalid, PlatformMismatch).  [released] is the error of an operation on
    a released database. *)
Variable artifact : Type.
Variable info_of : artifact -> gostring.
Variable size_of : artifact -> Z.
Variable encode : artifact -> bytes.
Variable decode : bytes -> artifact + error.
Variable released : error.

(** Modelled from the spec: the cgo function [hsDeserializeDatabase] is
    missing; [deserialize(bytes)] "reconstructs a Database" or fails when
    "the bytes are not a valid serialized database" (section 4.3).  The
    live databases are kept by handle; handle 0 is the null pointer. *)
Definition deserialize (data : bytes) (m : gmap N artifact)
  : (N * option error) * gmap N artifact :=
  match decode data with
  | inl a => let h := fresh ({[0%N]} ∪ dom m) in ((h, None), <[h := a]> m)
  | inr e => ((0%N, Some e), m)
  end.

(** Modelled from the spec: the cgo function [hsDeserializeDatabaseAt] is
    missing; [deserializeAt(bytes, existing Database)] "reconstructs into
    previously allocated storage ... avoiding a fresh allocation". *)
Definition deserialize_at (data : bytes) (h : N) (m : gmap N artifact)
  : option error * gmap N artifact :=
  match m !! h with
  | None => (Some released, m)
  | Some _ =>
      match decode data with
      | inl a => (None, <[h := a]> m)
      | inr e => (Some e, m)
      end
  end.

(** Modelled from the spec: the cgo function [hsSerializeDatabase] is
    missing; [serialize()] gives the serialized form of the database, which
    is "never mutated after compilation" (sections 2 and 4.3). *)
Definition serialize (h : N) (m : gmap N artifact)
  : (bytes * option error) * gmap N artifact :=
  match m !! h with
  | Some a => ((encode a, None), m)
  | None => (([], Some released), m)
  end.

(** Modelled from the spec: the cgo function [hsDatabaseInfo] is missing;
    [info()] returns the descriptor of the database. *)
Definition info (h : N) (m : gmap N artifact)
  : (gostring * option error) * gmap N artifact :=
  match m !! h with
  | Some a => ((info_of a, None), m)
  | None => (([], Some released), m)
  end.

(** Modelled from the spec: the cgo function [hsDatabaseSize] is missing;
    [size()] is the in-memory footprint. *)
Definition size (h : N) (m : gmap N artifact)
  : (Z * option error) * gmap N artifact :=
  match m !! h with
  | Some a => ((size_of a, None), m)
  | None => ((0%Z, Some released), m)
  end.

(** Modelled from the spec: the cgo function [hsFreeDatabase] is missing;
    [close()] "releases the Database"; "a second close or any subsequent use
    ... must fail". *)
Definition free (h : N) (m : gmap N artifact)
  : option error * gmap N artifact :=
  match m !! h with
  | Some _ => (None, delete h m)
  | None => (Some released, m)
  end.

(** Modelled from the spec: the cgo functions [hsSerializedDatabaseSize] and
    [hsSerializedDatabaseInfo] are missing; they "inspect a serialized form
    without fully deserializing it". *)
Definition serialized_size (data : bytes) (m : gmap N artifact)
  : (Z * option error) * gmap N artifact :=
  match decode data with
  | inl a => ((size_of a, None), m)
  | inr e => ((0%Z, Some e), m)
  end.

Definition serialized_info (data : bytes) (m : gmap N artifact)
  : (gostring * option error) * gmap N artifact :=
  match decode data with
  | inl a => ((info_of a, None), m)
  | inr e => (([], Some e), m)
  end.

(** The C layer of the specification. *)
Definition spec_api : HsApi := {|
  hsDatabase := N;
  hs_mem := gmap N artifact;
  hsDeserializeDatabase := deserialize;
  hsDeserializeDatabaseAt := deserialize_at;
  hsSerializeDatabase := serialize;
  hsDatabaseInfo := info;
  hsDatabaseSize := size;
  hsFreeDatabase := free;
  hsSerializedDatabaseSize := serialized_size;
  hsSerializedDatabaseInfo := serialized_info
|}.

End SpecModel.
End SpecModel.


(* ================================================================== *)
(** ** A small instance to run the wrappers on *)
(* ================================================================== *)

Module Example.

(** A serialized form with a one-byte header, and a database per byte
    string. *)
Definition artifact : Type := bytes.

Definition info_of (a : artifact) : gostring :=
  lit "Version: 5.4.0 Features:  Mode: BLOCK".

Definition size_of (a : artifact) : Z := Z.of_nat (length a).

Definition encode (a : artifact) : bytes := Byte.x01 :: a.

Definition decode (data : bytes) : artifact + error :=
  match data with
  | Byte.x01 :: a => inl a
  | _ => inr (HsError (-1))
  end.

Definition released : error := HsError (-1).

Definition api : HsApi :=
  SpecModel.spec_api artifact info_of size_of encode decode released.

Definition layers : Layers := {|
  blockScanner := loc; newBlockScanner := fun b => b;
  blockMatcher := loc; newBlockMatcher := fun s => s;
  streamScanner := loc; newStreamScanner := fun b => b;
  streamMatcher := loc; newStreamMatcher := fun s => s;
  vectoredScanner := loc; newVectoredScanner := fun b => b;
  vectoredMatcher := loc; newVectoredMatcher := fun s => s
|}.

(** One database, at address 1 of the Go heap, with handle 1. *)
Definition base1 : @baseDatabase api := @Build_baseDatabase api 1%N.

Definition world1 : @world api :=
  @World api {[1%positive := base1]} {[1%N := [Byte.x61; Byte.x62]]}.

End Example.

(** The characters that the literals and classes of [regexInfo] let
    through: word characters, white space, the dot and the colon. *)
Definition descriptor_char (c : ascii) : bool :=
  is_word_or_space c || Ascii.eqb c "." || Ascii.eqb c ":".

(** The length of the shortest descriptor, [Version: 0.0.0 Features:  Mode: X]. *)
Definition min_descriptor_length : nat := 33.


(* ================================================================== *)
(** ** The matcher against the declarative reading *)
(* ================================================================== *)

Section MatcherCorrect.

Lemma orelse_Some {A} (x y : option A) (v : A) :
  orelse x y = Some v -> x = Some v \/ (x = None /\ y = Some v).
Proof. destruct x; simpl; intros E; [left | right]; auto. Qed.

Lemma orelse_is_Some {A} (x y : option A) :
  (exists v, x = Some v) \/ (exists v, y = Some v) ->
  exists v, orelse x y = Some v.
Proof.
  intros [[v E] | [v E]]; subst; simpl; eauto.
  destruct x; simpl; eauto.
Qed.

(** What [iter] accepts is a run of the starred pattern. *)
Lemma iter_sound (a : re) (body : state -> (state -> option state) -> option state) :
  (forall st k res, body st k = Some res ->
     exists st', run a st st' /\ k st' = Some res) ->
  forall n st k res, iter body n st k = Some res ->
    exists st', run (Star a) st st' /\ k st' = Some res.
Proof.
  intros Hbody n. induction n as [|n IH]; intros st k res E; simpl in E.
  - exists st. split; [constructor | exact E].
  - apply orelse_Some in E. destruct E as [E | [_ E]].
    + apply Hbody in E. destruct E as (st1 & R1 & E).
      destruct (length (rest st1) <? length (rest st)) eqn:Hlt; [|discriminate].
      apply Nat.ltb_lt in Hlt.
      apply IH in E. destruct E as (st2 & R2 & E).
      exists st2. split; [|exact E]. eapply run_star_cons; eauto.
    + exists st. split; [constructor | exact E].
Qed.

(** Soundness: an accepted attempt is a run of the pattern. *)
Lemma bt_sound (r : re) :
  forall st k res, bt r st k = Some res ->
    exists st', run r st st' /\ k st' = Some res.
Proof.
  induction r as [ | c | p | a IHa b IHb | a IHa b IHb | a IHa | a IHa | a IHa
                 | i a IHa | | ]; intros st k res E; simpl in E.
  - exists st. split; [constructor | exact E].
  - destruct (rest st) as [|x tl] eqn:Hr; [discriminate|].
    destruct (Ascii.eqb x c) eqn:Hx; [|discriminate].
    apply Ascii.eqb_eq in Hx. subst x.
    exists (advance 1 st). split; [econstructor; eauto | exact E].
  - destruct (rest st) as [|x tl] eqn:Hr; [discriminate|].
    destruct (p x) eqn:Hx; [|discriminate].
    exists (advance 1 st). split; [econstructor; eauto | exact E].
  - apply IHa in E. destruct E as (st1 & R1 & E).
    apply IHb in E. destruct E as (st2 & R2 & E).
    exists st2. split; [econstructor; eauto | exact E].
  - apply orelse_Some in E. destruct E as [E | [_ E]].
    + apply IHa in E. destruct E as (st1 & R1 & E).
      exists st1. split; [apply run_alt_l; auto | exact E].
    + apply IHb in E. destruct E as (st1 & R1 & E).
      exists st1. split; [apply run_alt_r; auto | exact E].
  - apply orelse_Some in E. destruct E as [E | [_ E]].
    + apply IHa in E. destruct E as (st1 & R1 & E).
      exists st1. split; [apply run_opt_some; auto | exact E].
    + exists st. split; [apply run_opt_none | exact E].
  - eapply iter_sound; eauto.
  - apply IHa in E. destruct E as (st1 & R1 & E).
    eapply iter_sound in E; eauto. destruct E as (st2 & R2 & E).
    exists st2. split; [econstructor; eauto | exact E].
  - apply IHa in E. destruct E as (st1 & R1 & E).
    eexists. split; [econstructor; eauto | exact E].
  - destruct (pos st =? 0) eqn:Hp; [|discriminate].
    apply Nat.eqb_eq in Hp.
    exists st. split; [constructor; auto | exact E].
  - destruct (rest st) eqn:Hr; [|discriminate].
    exists st. split; [constructor; auto | exact E].
Qed.

(** With fuel for every character left, [iter] finds a run of the starred
    pattern that the continuation accepts, if there is one. *)
Lemma iter_complete (a : re) :
  (forall st st' k res, run a st st' -> k st' = Some res ->
     exists res', bt a st k = Some res') ->
  forall n st st' k res,
    length (rest st) <= n -> run (Star a) st st' -> k st' = Some res ->
    exists res', iter (bt a) n st k = Some res'.
Proof.
  intros Ha n. induction n as [|n IH]; intros st st' k res Hn R E.
  - inversion R; subst; simpl; eauto. lia.
  - simpl. apply orelse_is_Some. inversion R; subst.
    + right. eauto.
    + left.
      match goal with
      | H1 : run a st ?s2, H2 : run (Star a) ?s2 st' |- _ =>
          destruct (IH s2 st' k res ltac:(lia) H2 E) as (res1 & E1);
          eapply (Ha _ _ _ _ H1)
      end.
      match goal with
      | H : length (rest ?s2) < length (rest st) |- _ =>
          apply Nat.ltb_lt in H; rewrite H
      end.
      exact E1.
Qed.

(** Completeness: if some run of the pattern leads to a state the
    continuation accepts, the matcher accepts. *)
Lemma bt_complete (r : re) :
  forall st st' k res, run r st st' -> k st' = Some res ->
    exists res', bt r st k = Some res'.
Proof.
  induction r as [ | c | p | a IHa b IHb | a IHa b IHb | a IHa | a IHa | a IHa
                 | i a IHa | | ]; intros st st' k res R E;
    inversion R; subst; simpl.
  - eauto.
  - match goal with H : rest st = _ |- _ => rewrite H end.
    rewrite Ascii.eqb_refl. eauto.
  - match goal with H : rest st = _ |- _ => rewrite H end.
    match goal with H : p _ = true |- _ => rewrite H end. eauto.
  - match goal with
    | H1 : run a st ?s2, H2 : run b ?s2 st' |- _ =>
        destruct (IHb _ _ _ _ H2 E) as (res1 & E1);
        eapply (IHa _ _ _ _ H1); exact E1
    end.
  - apply orelse_is_Some. left. eapply IHa; eauto.
  - apply orelse_is_Some. right. eapply IHb; eauto.
  - apply orelse_is_Some. left. eapply IHa; eauto.
  - apply orelse_is_Some. right. eauto.
  - eapply iter_complete; eauto.
  - eapply iter_complete; eauto.
  - match goal with
    | H1 : run a st ?s2, H2 : run (Star a) ?s2 st' |- _ =>
        destruct (iter_complete a IHa (length (rest s2)) s2 st' k res
                    (Nat.le_refl _) H2 E) as (res1 & E1);
        eapply (IHa _ _ _ _ H1); exact E1
    end.
  - match goal with
    | H1 : run a st ?s2 |- _ => eapply (IHa _ _ _ _ H1); exact E
    end.
  - match goal with H : pos _ = 0 |- _ => rewrite H end. simpl. eauto.
  - match goal with H : rest _ = [] |- _ => rewrite H end. eauto.
Qed.

End MatcherCorrect.

(* ================================================================== *)
(** ** Runs of the pieces of [regexInfo] *)
(* ================================================================== *)

Lemma after_nil st : after st [] (rest st) = st.
Proof. destruct st; unfold after; simpl. f_equal. lia. Qed.

Lemma after_after st u tl1 v tl2 :
  after (after st u tl1) v tl2 = after st (u ++ v) tl2.
Proof. unfold after; simpl. f_equal. rewrite length_app. lia. Qed.

Lemma advance_after st w tl :
  rest st = w ++ tl -> advance (length w) st = after st w tl.
Proof.
  intros E. unfold advance, after. f_equal.
  rewrite E. rewrite skipn_app, skipn_all, Nat.sub_diag. reflexivity.
Qed.

Lemma consumed_after st w tl st' :
  rest st = w ++ tl -> rest st' = tl -> consumed st st' = w.
Proof.
  intros E1 E2. unfold consumed. rewrite E1, E2, length_app.
  replace (length w + length tl - length tl) with (length w) by lia.
  rewrite firstn_app, firstn_all, Nat.sub_diag. simpl. apply app_nil_r.
Qed.

Section Inversions.

Lemma run_seq_inv a b st st2 :
  run (Seq a b) st st2 -> exists st1, run a st st1 /\ run b st1 st2.
Proof. intros R; inversion R; subst; eauto. Qed.

Lemma run_cap_inv i a st st2 :
  run (Cap i a) st st2 ->
  exists st1, run a st st1 /\ st2 = set_cap i (consumed st st1) st1.
Proof. intros R; inversion R; subst; eauto. Qed.

Lemma run_opt_inv a st st1 :
  run (Opt a) st st1 -> run a st st1 \/ st1 = st.
Proof. intros R; inversion R; subst; auto. Qed.

Lemma run_chr_iff c st st1 :
  run (Chr c) st st1 <-> exists tl, rest st = c :: tl /\ st1 = after st [c] tl.
Proof.
  split.
  - intros R; inversion R; subst.
    match goal with H : rest st = c :: ?tl |- _ => exists tl end.
    split; auto. apply (advance_after st [c]); auto.
  - intros (tl & E & ->). rewrite <- (advance_after st [c] tl E).
    econstructor; eauto.
Qed.

Lemma run_cls_iff p st st1 :
  run (Cls p) st st1 <->
  exists x tl, p x = true /\ rest st = x :: tl /\ st1 = after st [x] tl.
Proof.
  split.
  - intros R; inversion R; subst.
    match goal with H : rest st = ?x :: ?tl |- _ => exists x, tl end.
    repeat split; auto. apply (advance_after st [_]); auto.
  - intros (x & tl & Hx & E & ->). rewrite <- (advance_after st [x] tl E).
    econstructor; eauto.
Qed.

Lemma run_str_iff l st st1 :
  run (str l) st st1 <-> exists tl, rest st = l ++ tl /\ st1 = after st l tl.
Proof.
  revert st st1. induction l as [|c l IH]; intros st st1; simpl.
  - split.
    + intros R; inversion R; subst. exists (rest st1). split; auto.
      symmetry; apply after_nil.
    + intros (tl & E & ->). simpl in E. subst tl. rewrite after_nil. constructor.
  - split.
    + intros R. apply run_seq_inv in R. destruct R as (st2 & R1 & R2).
      apply run_chr_iff in R1. destruct R1 as (tl1 & E1 & ->).
      apply IH in R2. destruct R2 as (tl & E2 & ->). simpl in E2. subst tl1.
      exists tl. split; auto. apply (after_after st [c]).
    + intros (tl & E & ->).
      apply run_seq with (st2 := after st [c] (l ++ tl)).
      * apply run_chr_iff. eauto.
      * apply IH. exists tl. split; auto.
        symmetry. apply (after_after st [c]).
Qed.

Lemma run_star_cls_iff p st st1 :
  run (Star (Cls p)) st st1 <->
  exists w tl, forallb p w = true /\ rest st = w ++ tl /\ st1 = after st w tl.
Proof.
  split.
  - intros R. remember (Star (Cls p)) as r eqn:Er.
    induction R; try discriminate; injection Er as ->.
    + exists [], (rest st). repeat split; auto. symmetry; apply after_nil.
    + apply run_cls_iff in R1. destruct R1 as (x & tl1 & Hx & E1 & ->).
      destruct (IHR2 eq_refl) as (w & tl & Hw & E2 & ->). simpl in E2. subst tl1.
      exists (x :: w), tl. simpl. rewrite Hx, Hw. repeat split; auto.
      apply (after_after st1 [x]).
  - intros (w & tl & Hw & E & ->). revert st E.
    induction w as [|x w IH]; intros st E; simpl in *.
    + subst tl. rewrite after_nil. constructor.
    + apply andb_prop in Hw. destruct Hw as [Hx Hw].
      apply run_star_cons with (st2 := after st [x] (w ++ tl)).
      * apply run_cls_iff. exists x, (w ++ tl). auto.
      * rewrite E. simpl. lia.
      * pose proof (after_after st [x] (w ++ tl) w tl) as A. simpl in A.
        rewrite <- A. apply IH; auto.
Qed.

Lemma run_plus_cls_iff p st st1 :
  run (Plus (Cls p)) st st1 <->
  exists w tl, w <> [] /\ forallb p w = true
               /\ rest st = w ++ tl /\ st1 = after st w tl.
Proof.
  split.
  - intros R. inversion R; subst.
    match goal with
    | H1 : run (Cls p) _ _, H2 : run (Star _) _ _ |- _ =>
        apply run_cls_iff in H1; destruct H1 as (x & tl1 & Hx & E1 & ->);
        apply run_star_cls_iff in H2; destruct H2 as (w & tl & Hw & E2 & ->)
    end.
    simpl in E2. subst tl1. exists (x :: w), tl. simpl. rewrite Hx, Hw.
    split; [discriminate|]. repeat split; auto. apply (after_after st [x]).
  - intros (w & tl & Hne & Hw & E & ->).
    destruct w as [|x w]; [congruence|]. simpl in *.
    apply andb_prop in Hw. destruct Hw as [Hx Hw].
    apply run_plus with (st2 := after st [x] (w ++ tl)).
    + apply run_cls_iff. exists x, (w ++ tl). auto.
    + apply run_star_cls_iff. exists w, tl. repeat split; auto.
      symmetry. apply (after_after st [x]).
Qed.

End Inversions.

Section Spans.

Lemma spans_iff r (P Q : gostring -> Prop) :
  spans r P -> (forall w, P w <-> Q w) -> spans r Q.
Proof.
  intros H PQ st st'. rewrite (H st st'). split.
  - intros (w & tl & Hw & E); exists w, tl; split; [apply PQ|]; auto.
  - intros (w & tl & Hw & E); exists w, tl; split; [apply PQ|]; auto.
Qed.

Lemma spans_chr c : spans (Chr c) (fun w => w = [c]).
Proof.
  intros st st'. rewrite run_chr_iff. split.
  - intros (tl & E & ->). exists [c], tl. auto.
  - intros (w & tl & -> & E & ->). exists tl. auto.
Qed.

Lemma spans_str l : spans (str l) (fun w => w = l).
Proof.
  intros st st'. rewrite run_str_iff. split.
  - intros (tl & E & ->). exists l, tl. auto.
  - intros (w & tl & -> & E & ->). exists tl. auto.
Qed.

Lemma spans_plus_cls p :
  spans (Plus (Cls p)) (fun w => w <> [] /\ forallb p w = true).
Proof.
  intros st st'. rewrite run_plus_cls_iff. split.
  - intros (w & tl & Hne & Hw & E); exists w, tl; auto.
  - intros (w & tl & [Hne Hw] & E); exists w, tl; auto.
Qed.

Lemma spans_seq a b (P Q : gostring -> Prop) :
  spans a P -> spans b Q ->
  spans (Seq a b) (fun w => exists u v, w = u ++ v /\ P u /\ Q v).
Proof.
  intros Ha Hb st st'. split.
  - intros R. apply run_seq_inv in R. destruct R as (st1 & R1 & R2).
    apply Ha in R1. destruct R1 as (u & tl1 & Hu & E1 & ->).
    apply Hb in R2. destruct R2 as (v & tl & Hv & E2 & ->). simpl in E2.
    exists (u ++ v), tl. split; [eauto|]. split.
    + rewrite E1, E2. apply app_assoc.
    + apply after_after.
  - intros (w & tl & (u & v & -> & Hu & Hv) & E & ->).
    apply run_seq with (st2 := after st u (v ++ tl)).
    + apply Ha. exists u, (v ++ tl). repeat split; auto.
      rewrite E. symmetry. apply app_assoc.
    + apply Hb. exists v, tl. repeat split; auto.
      symmetry. apply after_after.
Qed.

(** A group around a pattern that touches no group records what the
    pattern consumed. *)
Lemma run_cap_spans i a (P : gostring -> Prop) st st' :
  spans a P ->
  (run (Cap i a) st st' <->
   exists w tl, P w /\ rest st = w ++ tl /\ st' = set_cap i w (after st w tl)).
Proof.
  intros Ha. split.
  - intros R. apply run_cap_inv in R. destruct R as (st1 & R & ->).
    apply Ha in R. destruct R as (w & tl & Hw & E & ->).
    exists w, tl. repeat split; auto.
    rewrite (consumed_after st w tl); auto.
  - intros (w & tl & Hw & E & ->).
    assert (R : run a st (after st w tl)) by (apply Ha; exists w, tl; auto).
    apply (run_cap i) in R.
    rewrite (consumed_after st w tl (after st w tl) E eq_refl) in R. exact R.
Qed.

End Spans.
Section RegexInfo.

Lemma spans_semver :
  spans (Seq (Plus (Cls is_digit))
        (Seq (Chr ".")
        (Seq (Plus (Cls is_digit))
        (Seq (Chr ".")
             (Plus (Cls is_digit))))))
        semver.
Proof.
  eapply spans_iff.
  - apply spans_seq; [apply spans_plus_cls|].
    apply spans_seq; [apply spans_chr|].
    apply spans_seq; [apply spans_plus_cls|].
    apply spans_seq; [apply spans_chr|].
    apply spans_plus_cls.
  - intros w. unfold semver, digits. split.
    + intros (x & r1 & -> & Hx & d1 & r2 & -> & -> & y & r3 & -> & Hy
              & d2 & z & -> & -> & Hz).
      exists x, y, z. simpl. auto.
    + intros (x & y & z & -> & Hx & Hy & Hz).
      exists x, ("."%char :: y ++ "."%char :: z). repeat split; try apply Hx.
      exists ["."%char], (y ++ "."%char :: z). repeat split.
      exists y, ("."%char :: z). repeat split; try apply Hy.
      exists ["."%char], z. repeat split; apply Hz.
Qed.

Lemma regexInfo_run_inv st st' :
  run regexInfo st st' ->
  pos st = 0 /\
  exists v f m, descriptor (rest st) v f m /\ rest st' = [] /\
    caps st' = <[3 := Some m]> (features_caps f (<[1 := Some v]> (caps st))).
Proof.
  unfold regexInfo. intros R.
  apply run_seq_inv in R. destruct R as (s0 & R0 & R). inversion R0; subst.
  split; [assumption|].
  apply run_seq_inv in R. destruct R as (s1 & R1 & R).
  apply spans_str in R1. destruct R1 as (? & t1 & -> & E1 & ->).
  apply run_seq_inv in R. destruct R as (s2 & R2 & R).
  apply (run_cap_spans _ _ _ _ _ spans_semver) in R2.
  destruct R2 as (v & t2 & Hv & E2 & ->).
  apply run_seq_inv in R. destruct R as (s3 & R3 & R).
  apply spans_str in R3. destruct R3 as (? & t3 & -> & E3 & ->).
  apply run_seq_inv in R. destruct R as (s4 & R4 & R).
  assert (F : exists f t4, words f /\ t3 = f ++ t4 /\
            rest s4 = t4 /\
            caps s4 = features_caps f (<[1 := Some v]> (caps s0))).
  { apply run_opt_inv in R4. destruct R4 as [R4 | ->].
    - apply (run_cap_spans _ _ _ _ _ (spans_plus_cls _)) in R4.
      destruct R4 as (f & t4 & [Hne Hf] & E4 & ->).
      exists f, t4. repeat split; auto.
      destruct f; [congruence|]. reflexivity.
    - exists [], t3. repeat split; auto. }
  destruct F as (f & t4 & Hf & -> & E4 & C4).
  apply run_seq_inv in R. destruct R as (s5 & R5 & R).
  apply spans_str in R5. destruct R5 as (? & t5 & -> & E5 & ->).
  apply run_seq_inv in R. destruct R as (s6 & R6 & R).
  apply (run_cap_spans _ _ _ _ _ (spans_plus_cls _)) in R6.
  destruct R6 as (m & t6 & Hm & E6 & ->).
  inversion R as [ | | | | | | | | | | | | | ? E7]; subst. simpl in *. subst.
  exists v, f, m. split; [|split].
  - unfold descriptor. split; [|auto].
    rewrite E1, E5. simpl. rewrite app_nil_r. reflexivity.
  - reflexivity.
  - simpl. rewrite C4. reflexivity.
Qed.

Lemma regexInfo_run_intro st v f m :
  pos st = 0 -> descriptor (rest st) v f m ->
  exists st', run regexInfo st st'.
Proof.
  intros Hp (E & Hv & Hf & Hm). unfold regexInfo.
  set (L1 := lit "Version: ") in *. set (L2 := lit " Features: ") in *.
  set (L3 := lit " Mode: ") in *.
  set (s1 := after st L1 (v ++ L2 ++ f ++ L3 ++ m)).
  set (s2 := set_cap 1 v (after s1 v (L2 ++ f ++ L3 ++ m))).
  set (s3 := after s2 L2 (f ++ L3 ++ m)).
  assert (F : exists s4, rest s4 = L3 ++ m /\
            run (Opt (Cap 2 (Plus (Cls is_word_or_space)))) s3 s4).
  { destruct f as [|c f].
    - exists s3. split; [reflexivity | apply run_opt_none].
    - exists (set_cap 2 (c :: f) (after s3 (c :: f) (L3 ++ m))).
      split; [reflexivity|]. apply run_opt_some.
      apply (run_cap_spans _ _ _ _ _ (spans_plus_cls _)).
      exists (c :: f), (L3 ++ m). repeat split; auto. }
  destruct F as (s4 & E4 & R4).
  set (s5 := after s4 L3 m).
  set (s6 := set_cap 3 m (after s5 m [])).
  exists s6.
  apply run_seq with (st2 := st); [constructor; auto|].
  apply run_seq with (st2 := s1).
  { apply spans_str. exists L1, (v ++ L2 ++ f ++ L3 ++ m). auto. }
  apply run_seq with (st2 := s2).
  { apply (run_cap_spans _ _ _ _ _ spans_semver).
    exists v, (L2 ++ f ++ L3 ++ m). auto. }
  apply run_seq with (st2 := s3).
  { apply spans_str. exists L2, (f ++ L3 ++ m). auto. }
  apply run_seq with (st2 := s4); [exact R4|].
  apply run_seq with (st2 := s5).
  { apply spans_str. exists L3, m. auto. }
  apply run_seq with (st2 := s6).
  { apply (run_cap_spans _ _ _ _ _ (spans_plus_cls _)).
    exists m, []. repeat split; try apply Hm. simpl. symmetry. apply app_nil_r. }
  constructor. reflexivity.
Qed.

End RegexInfo.

(* ================================================================== *)
(** ** A descriptor has one reading *)
(* ================================================================== *)

Section Unique.

Lemma split_unique (P : ascii -> bool) l1 l2 x y r1 r2 :
  forallb P l1 = true -> forallb P l2 = true ->
  P x = false -> P y = false ->
  l1 ++ x :: r1 = l2 ++ y :: r2 ->
  l1 = l2 /\ x = y /\ r1 = r2.
Proof.
  revert l2. induction l1 as [|a l1 IH]; intros [|b l2] H1 H2 Hx Hy E;
    simpl in *.
  - injection E as -> ->. auto.
  - injection E as -> _. apply andb_prop in H2. destruct H2 as [H2 _]. congruence.
  - injection E as -> _. apply andb_prop in H1. destruct H1 as [H1 _]. congruence.
  - injection E as -> E. apply andb_prop in H1. apply andb_prop in H2.
    destruct H1 as [_ H1]. destruct H2 as [_ H2].
    destruct (IH l2 H1 H2 Hx Hy E) as (-> & -> & ->). auto.
Qed.

Lemma forallb_weaken (P Q : ascii -> bool) l :
  (forall c, P c = true -> Q c = true) ->
  forallb P l = true -> forallb Q l = true.
Proof.
  intros PQ. induction l as [|c l IH]; simpl; auto.
  intros H. apply andb_prop in H. destruct H as [Hc Hl].
  rewrite (PQ c Hc). simpl. auto.
Qed.

Lemma semver_digit_or_dot v : semver v -> forallb digit_or_dot v = true.
Proof.
  intros (x & y & z & -> & [_ Hx] & [_ Hy] & [_ Hz]).
  assert (W : forall l, forallb is_digit l = true -> forallb digit_or_dot l = true).
  { intros l. apply forallb_weaken. intros c Hc. unfold digit_or_dot.
    rewrite Hc. reflexivity. }
  rewrite forallb_app. simpl. rewrite forallb_app. simpl.
  rewrite (W x Hx), (W y Hy), (W z Hz). reflexivity.
Qed.

Lemma descriptor_unique s v f m v' f' m' :
  descriptor s v f m -> descriptor s v' f' m' ->
  v = v' /\ f = f' /\ m = m'.
Proof.
  intros (E & Hv & Hf & Hm) (E' & Hv' & Hf' & Hm').
  rewrite E in E'. apply app_inv_head in E'.
  assert (B : forall g n, g ++ lit " Features: " ++ n
                          = g ++ " "%char :: lit "Features: " ++ n)
    by reflexivity.
  rewrite !B in E'.
  apply (split_unique digit_or_dot) in E';
    try (apply semver_digit_or_dot; assumption); try reflexivity.
  destruct E' as (-> & _ & E').
  apply app_inv_head in E'.
  assert (A : forall g n, g ++ lit " Mode: " ++ n
                          = (g ++ lit " Mode") ++ ":"%char :: " "%char :: n).
  { intros g n. rewrite <- app_assoc. reflexivity. }
  rewrite (A f m), (A f' m') in E'.
  apply (split_unique is_word_or_space) in E'; try reflexivity.
  - destruct E' as (Ef & _ & Em).
    apply app_inv_tail in Ef. injection Em as ->. auto.
  - rewrite forallb_app, Hf. reflexivity.
  - rewrite forallb_app, Hf'. reflexivity.
Qed.

End Unique.

(* ================================================================== *)
(** ** [FindStringSubmatch] on [regexInfo] *)
(* ================================================================== *)

Section FindInfo.

Lemma search_unfold r p s :
  search r p s =
  match bt (Cap 0 r) (start r p s) Some with
  | Some st => Some st
  | None => match s with [] => None | _ :: s' => search r (S p) s' end
  end.
Proof. destruct s; reflexivity. Qed.

(** A pattern that begins with [^] matches at no offset past 0. *)
Lemma search_anchored_later r s p :
  0 < p -> search (Seq Bot r) p s = None.
Proof.
  revert p. induction s as [|c s IH]; intros p Hp; rewrite search_unfold;
    cbn [bt start pos]; destruct (p =? 0) eqn:E;
    try (apply Nat.eqb_eq in E; lia);
    [reflexivity | apply IH; lia].
Qed.

Lemma search_anchored r s :
  search (Seq Bot r) 0 s = bt (Cap 0 (Seq Bot r)) (start (Seq Bot r) 0 s) Some.
Proof.
  rewrite search_unfold.
  destruct (bt (Cap 0 (Seq Bot r)) (start (Seq Bot r) 0 s) Some);
    [reflexivity|].
  destruct s; [reflexivity | apply search_anchored_later; lia].
Qed.

Lemma search_regexInfo s :
  search regexInfo 0 s = bt (Cap 0 regexInfo) (start regexInfo 0 s) Some.
Proof. apply search_anchored. Qed.

Lemma search_regexInfo_Some s st :
  search regexInfo 0 s = Some st ->
  exists v f m, descriptor s v f m /\
    caps st = [Some s; Some v; match f with [] => None | _ :: _ => Some f end;
               Some m].
Proof.
  rewrite search_regexInfo. intros E.
  apply bt_sound in E. destruct E as (st' & R & E). injection E as <-.
  apply run_cap_inv in R. destruct R as (st1 & R & ->).
  apply regexInfo_run_inv in R. destruct R as (_ & v & f & m & D & E1 & C).
  exists v, f, m. split; [exact D|].
  unfold set_cap, consumed. cbn [caps rest start].
  rewrite C, E1. cbn [length]. rewrite Nat.sub_0_r, firstn_all.
  destruct f; reflexivity.
Qed.

Lemma search_regexInfo_complete s v f m :
  descriptor s v f m -> exists st, search regexInfo 0 s = Some st.
Proof.
  intros D. rewrite search_regexInfo.
  destruct (regexInfo_run_intro (start regexInfo 0 s) v f m eq_refl D)
    as (st1 & R).
  eapply bt_complete; [apply run_cap; exact R | reflexivity].
Qed.

(** On a descriptor the result is the whole text and the three fields. *)
Lemma FindStringSubmatch_descriptor s v f m :
  descriptor s v f m -> FindStringSubmatch regexInfo s = [s; v; f; m].
Proof.
  intros D. unfold FindStringSubmatch.
  destruct (search_regexInfo_complete s v f m D) as (st & E). rewrite E.
  apply search_regexInfo_Some in E. destruct E as (v' & f' & m' & D' & ->).
  destruct (descriptor_unique _ _ _ _ _ _ _ D D') as (-> & -> & ->).
  destruct f'; reflexivity.
Qed.

(** On anything else it is nil. *)
Lemma FindStringSubmatch_garbage s :
  ~ well_formed s -> FindStringSubmatch regexInfo s = [].
Proof.
  intros N. unfold FindStringSubmatch.
  destruct (search regexInfo 0 s) as [st|] eqn:E; [|reflexivity].
  exfalso. apply N. apply search_regexInfo_Some in E.
  destruct E as (v & f & m & D & _). exists v, f, m. exact D.
Qed.

(** Whether a string is a descriptor is decided by the search. *)
Lemma well_formed_dec s : well_formed s \/ ~ well_formed s.
Proof.
  destruct (search regexInfo 0 s) as [st|] eqn:E.
  - left. apply search_regexInfo_Some in E.
    destruct E as (v & f & m & D & _). exists v, f, m. exact D.
  - right. intros (v & f & m & D).
    destruct (search_regexInfo_complete s v f m D) as (st & E'). congruence.
Qed.

End FindInfo.

(* ================================================================== *)
(** ** The grammar of the specification *)
(* ================================================================== *)

Section SpecGrammar.

Lemma lang_seq_iff a b s :
  lang (PSeq a b) s <-> exists u v, s = u ++ v /\ lang a u /\ lang b v.
Proof.
  split.
  - intros L; inversion L; subst; eauto.
  - intros (u & v & -> & La & Lb). constructor; auto.
Qed.

Lemma lang_chr_iff c s : lang (PChr c) s <-> s = [c].
Proof.
  split.
  - intros L; inversion L; subst; auto.
  - intros ->. constructor.
Qed.

Lemma lang_pstr l s : lang (pstr l) s <-> s = l.
Proof.
  revert s. induction l as [|c l IH]; intros s; simpl.
  - split; [intros L; inversion L; auto | intros ->; constructor].
  - rewrite lang_seq_iff. split.
    + intros (u & v & -> & Lu & Lv). apply lang_chr_iff in Lu. apply IH in Lv.
      subst. reflexivity.
    + intros ->. exists [c], l. repeat split; [constructor | apply IH; auto].
Qed.

Lemma lang_star_cls p s :
  lang (PStar (PCls p)) s <-> forallb p s = true.
Proof.
  split.
  - intros L. remember (PStar (PCls p)) as r eqn:Er.
    induction L; try discriminate; injection Er as ->; [reflexivity|].
    inversion L1; subst. simpl.
    match goal with H : p _ = true |- _ => rewrite H end.
    simpl. apply IHL2. reflexivity.
  - induction s as [|c s IH]; simpl; intros H.
    + constructor.
    + apply andb_prop in H. destruct H as [Hc Hs].
      apply (lang_star_cons (PCls p) [c] s); [constructor; auto | auto].
Qed.

Lemma lang_plus_cls p s :
  lang (PPlus (PCls p)) s <-> s <> [] /\ forallb p s = true.
Proof.
  split.
  - intros L. inversion L as [ | | | | | | a u v Lu Lv]; subst.
    inversion Lu; subst. apply lang_star_cls in Lv. simpl.
    split; [discriminate|].
    match goal with H : p _ = true |- _ => rewrite H end. exact Lv.
  - intros [Hne H]. destruct s as [|c s]; [congruence|]. simpl in H.
    apply andb_prop in H. destruct H as [Hc Hs].
    apply (lang_plus (PCls p) [c] s); [constructor; auto|].
    apply lang_star_cls; auto.
Qed.

(** The grammar of the external-interface section and the three-field
    reading describe the same strings. *)
Lemma lang_specInfo s : lang specInfo s <-> well_formed s.
Proof.
  unfold specInfo, well_formed, descriptor, semver, digits, word, words.
  split.
  - intros L.
    apply lang_seq_iff in L. destruct L as (l1 & r & -> & L1 & L).
    apply lang_pstr in L1. subst l1.
    apply lang_seq_iff in L. destruct L as (x & r1 & -> & Lx & L).
    apply lang_plus_cls in Lx.
    apply lang_seq_iff in L. destruct L as (d1 & r2 & -> & Ld1 & L).
    apply lang_chr_iff in Ld1. subst d1.
    apply lang_seq_iff in L. destruct L as (y & r3 & -> & Ly & L).
    apply lang_plus_cls in Ly.
    apply lang_seq_iff in L. destruct L as (d2 & r4 & -> & Ld2 & L).
    apply lang_chr_iff in Ld2. subst d2.
    apply lang_seq_iff in L. destruct L as (z & r5 & -> & Lz & L).
    apply lang_plus_cls in Lz.
    apply lang_seq_iff in L. destruct L as (l2 & r6 & -> & L2 & L).
    apply lang_pstr in L2. subst l2.
    apply lang_seq_iff in L. destruct L as (f & r7 & -> & Lf & L).
    apply lang_star_cls in Lf.
    apply lang_seq_iff in L. destruct L as (l3 & m & -> & L3 & Lm).
    apply lang_pstr in L3. subst l3.
    apply lang_plus_cls in Lm.
    exists (x ++ "."%char :: y ++ "."%char :: z), f, m.
    split; [|split; [exists x, y, z; auto | auto]].
    f_equal. rewrite <- !app_assoc. simpl. rewrite <- !app_assoc. reflexivity.
  - intros (v & f & m & -> & (x & y & z & -> & Hx & Hy & Hz) & Hf & Hm).
    apply lang_seq; [apply lang_pstr; reflexivity|].
    replace ((x ++ "."%char :: y ++ "."%char :: z)
             ++ lit " Features: " ++ f ++ lit " Mode: " ++ m)
      with (x ++ ["."%char] ++ y ++ ["."%char] ++ z
            ++ lit " Features: " ++ f ++ lit " Mode: " ++ m)
      by (rewrite <- (app_assoc x); cbn [app]; rewrite <- (app_assoc y);
          reflexivity).
    apply lang_seq; [apply lang_plus_cls; exact Hx|].
    apply lang_seq; [constructor|].
    apply lang_seq; [apply lang_plus_cls; exact Hy|].
    apply lang_seq; [constructor|].
    apply lang_seq; [apply lang_plus_cls; exact Hz|].
    apply lang_seq; [apply lang_pstr; reflexivity|].
    apply lang_seq; [apply lang_star_cls; exact Hf|].
    apply lang_seq; [apply lang_pstr; reflexivity|].
    apply lang_plus_cls; exact Hm.
Qed.

End SpecGrammar.

(* ================================================================== *)
(** ** [DbInfo]: version and mode of a descriptor *)
(* ================================================================== *)

Section DbInfoFacts.

Variable ErrInvalid : error.
Variable ParseModeFlag : gostring -> ModeFlag * option error.

Lemma error_eqb_refl e : error_eqb e e = true.
Proof.
  induction e as [c | p w IH]; simpl.
  - apply Z.eqb_refl.
  - rewrite String.eqb_refl, IH. reflexivity.
Qed.

Lemma Is_refl e : Is e e = true.
Proof. destruct e; cbn [Is]; rewrite error_eqb_refl; reflexivity. Qed.

(** What [fmt.Errorf("... %w", e)] returns is [e] to [errors.Is]. *)
Lemma Is_Errorf p e : Is (Errorf p e) e = true.
Proof. cbn [Is]. rewrite Is_refl. apply orb_true_r. Qed.

Lemma Version_descriptor s v f m :
  descriptor s v f m -> Version ErrInvalid s = (v, None).
Proof.
  intros D. unfold Version. rewrite (FindStringSubmatch_descriptor s v f m D).
  reflexivity.
Qed.

Lemma Mode_descriptor s v f m :
  descriptor s v f m -> Mode ErrInvalid ParseModeFlag s = ParseModeFlag m.
Proof.
  intros D. unfold Mode. rewrite (FindStringSubmatch_descriptor s v f m D).
  reflexivity.
Qed.

Lemma Version_garbage s :
  ~ well_formed s ->
  Version ErrInvalid s = ([], Some (Errorf "database info, " ErrInvalid)).
Proof.
  intros N. unfold Version. rewrite (FindStringSubmatch_garbage s N).
  reflexivity.
Qed.

Lemma Mode_garbage s :
  ~ well_formed s ->
  Mode ErrInvalid ParseModeFlag s
  = (0%N, Some (Errorf "database info, " ErrInvalid)).
Proof.
  intros N. unfold Mode. rewrite (FindStringSubmatch_garbage s N).
  reflexivity.
Qed.

Lemma Version_ok_iff s :
  snd (Version ErrInvalid s) = None <-> well_formed s.
Proof.
  split.
  - intros H. destruct (well_formed_dec s) as [W | N]; [exact W|].
    rewrite (Version_garbage s N) in H. discriminate.
  - intros (v & f & m & D). rewrite (Version_descriptor s v f m D). reflexivity.
Qed.

End DbInfoFacts.

(** What the search finds nothing in is no descriptor. *)
Lemma search_None_garbage s :
  search regexInfo 0 s = None -> ~ well_formed s.
Proof.
  intros E (v & f & m & D).
  destruct (search_regexInfo_complete s v f m D) as (st & E'). congruence.
Qed.

(** The matcher on a few texts. *)
Example find_stream :
  FindStringSubmatch regexInfo (lit "Version: 5.4.0 Features: AVX2 Mode: STREAM")
  = [lit "Version: 5.4.0 Features: AVX2 Mode: STREAM";
     lit "5.4.0"; lit "AVX2"; lit "STREAM"].
Proof. vm_compute. reflexivity. Qed.

Example find_no_features :
  FindStringSubmatch regexInfo (lit "Version: 5.4.0 Features:  Mode: BLOCK")
  = [lit "Version: 5.4.0 Features:  Mode: BLOCK"; lit "5.4.0"; []; lit "BLOCK"].
Proof. vm_compute. reflexivity. Qed.

Example find_one_space :
  FindStringSubmatch regexInfo (lit "Version: 5.4.0 Features: Mode: BLOCK") = [].
Proof. vm_compute. reflexivity. Qed.

Example find_leading_space :
  FindStringSubmatch regexInfo (lit " Version: 5.4.0 Features:  Mode: BLOCK") = [].
Proof. vm_compute. reflexivity. Qed.

Example find_trailing_newline :
  FindStringSubmatch regexInfo
    (lit "Version: 5.4.0 Features:  Mode: BLOCK" ++ ["010"%char]) = [].
Proof. vm_compute. reflexivity. Qed.

Example find_two_part_version :
  FindStringSubmatch regexInfo (lit "Version: 5.4 Features: AVX2 Mode: BLOCK") = [].
Proof. vm_compute. reflexivity. Qed.

Example find_garbage : FindStringSubmatch regexInfo (lit "garbage") = [].
Proof. vm_compute. reflexivity. Qed.

Example num_groups : S (NumSubexp regexInfo) = infoMatches.
Proof. reflexivity. Qed.

(** C10: [DbInfo] is a transparent wrapper over its string: [String()]
    returns the string it was converted from, unchanged. *)
Theorem DbInfo_String_identity (s : gostring) : String_ s = s.
Proof. reflexivity. Qed.

(** C2: on a string that is not a descriptor of the three-field grammar,
    [Version()] and [Mode()] both return an error that wraps [ErrInvalid],
    so that [errors.Is] finds the Invalid kind. *)
Theorem invalid_descriptor_is_ErrInvalid
    (ErrInvalid : error) (ParseModeFlag : gostring -> ModeFlag * option error)
    (s : gostring) :
  ~ well_formed s ->
  (exists e, Version ErrInvalid s = ([], Some e) /\ Is e ErrInvalid = true)
  /\ (exists e, Mode ErrInvalid ParseModeFlag s = (0%N, Some e)
                /\ Is e ErrInvalid = true).
Proof.
  intros N. split; eexists; split;
    [apply Version_garbage; exact N | apply Is_Errorf
    |apply Mode_garbage; exact N | apply Is_Errorf].
Qed.

Lemma invalid_descriptor_is_ErrInvalid_witness :
  (exists e, Version (HsError (-1)) (lit "garbage") = ([], Some e)
             /\ Is e (HsError (-1)) = true)
  /\ (exists e, Mode (HsError (-1)) (fun _ => (1%N, None)) (lit "garbage")
                = (0%N, Some e)
                /\ Is e (HsError (-1)) = true).
Proof.
  apply (invalid_descriptor_is_ErrInvalid (HsError (-1)) (fun _ => (1%N, None))
           (lit "garbage")).
  apply search_None_garbage. vm_compute. reflexivity.
Defined.

(** C3: [Version()] succeeds exactly on the strings of the grammar
    [Version: \d+\.\d+\.\d+ Features: [\w\s]* Mode: \w+] of the
    external-interface section, matched as a whole; a descriptor with
    nothing between [Features: ] and [ Mode: ] is among them. *)
Theorem Version_succeeds_iff_grammar (ErrInvalid : error) :
  (forall s, snd (Version ErrInvalid s) = None <-> lang specInfo s)
  /\ (forall v m, semver v -> word m ->
        Version ErrInvalid
          (lit "Version: " ++ v ++ lit " Features: " ++ lit " Mode: " ++ m)
        = (v, None)).
Proof.
  split.
  - intros s. rewrite Version_ok_iff, lang_specInfo. reflexivity.
  - intros v m Hv Hm. apply (Version_descriptor _ _ v [] m).
    repeat split; auto; apply Hm.
Qed.

Lemma Version_succeeds_iff_grammar_witness :
  Version (HsError (-1)) (lit "Version: 5.4.0 Features:  Mode: BLOCK")
  = (lit "5.4.0", None).
Proof.
  apply (proj2 (Version_succeeds_iff_grammar (HsError (-1)))
           (lit "5.4.0") (lit "BLOCK")).
  - exists (lit "5"), (lit "4"), (lit "0").
    repeat split; try discriminate; reflexivity.
  - split; [discriminate | reflexivity].
Defined.

(** C4: on a descriptor, the match is the whole text and the three fields;
    [Version()] returns the first field, the dotted version, and [Mode()]
    returns what [ParseModeFlag] makes of the third, the mode word. *)
Theorem descriptor_fields
    (ErrInvalid : error) (ParseModeFlag : gostring -> ModeFlag * option error)
    (s v f m : gostring) :
  descriptor s v f m ->
  FindStringSubmatch regexInfo s = [s; v; f; m]
  /\ Version ErrInvalid s = (v, None)
  /\ Mode ErrInvalid ParseModeFlag s = ParseModeFlag m.
Proof.
  intros D. split; [|split].
  - apply FindStringSubmatch_descriptor; exact D.
  - eapply Version_descriptor; exact D.
  - eapply Mode_descriptor; exact D.
Qed.

Lemma descriptor_fields_witness :
  let s := lit "Version: 5.4.0 Features: AVX2 Mode: STREAM" in
  let parse := fun m : gostring => (N.of_nat (length m), @None error) in
  FindStringSubmatch regexInfo s
  = [s; lit "5.4.0"; lit "AVX2"; lit "STREAM"]
  /\ Version (HsError (-1)) s = (lit "5.4.0", None)
  /\ Mode (HsError (-1)) parse s = (6%N, None).
Proof.
  intros s parse.
  apply (descriptor_fields (HsError (-1)) parse s
           (lit "5.4.0") (lit "AVX2") (lit "STREAM")).
  split; [reflexivity|]. split; [|split].
  - exists (lit "5"), (lit "4"), (lit "0").
    repeat split; try discriminate; reflexivity.
  - reflexivity.
  - split; [discriminate | reflexivity].
Defined.

(** C8: where [Mode()] succeeds, [Version()] succeeds; and on a descriptor
    whose mode word [ParseModeFlag] rejects, [Version()] succeeds and
    [Mode()] fails. *)
Theorem Mode_ok_Version_ok
    (ErrInvalid : error) (ParseModeFlag : gostring -> ModeFlag * option error) :
  (forall s, snd (Mode ErrInvalid ParseModeFlag s) = None ->
             snd (Version ErrInvalid s) = None)
  /\ (forall s v f m, descriptor s v f m -> snd (ParseModeFlag m) <> None ->
        snd (Version ErrInvalid s) = None
        /\ snd (Mode ErrInvalid ParseModeFlag s) <> None).
Proof.
  split.
  - intros s H. destruct (well_formed_dec s) as [W | N].
    + apply Version_ok_iff. exact W.
    + rewrite (Mode_garbage _ _ s N) in H. discriminate.
  - intros s v f m D H.
    rewrite (Version_descriptor _ s v f m D), (Mode_descriptor _ _ s v f m D).
    auto.
Qed.

Lemma Mode_ok_Version_ok_witness :
  let s := lit "Version: 5.4.0 Features: AVX2 Mode: TURBO" in
  let parse := fun m : gostring =>
    match m with
    | "B"%char :: _ => (1%N, @None error)
    | _ => (0%N, Some (Errorf "database mode, " (HsError (-1))))
    end in
  snd (Version (HsError (-1)) s) = None
  /\ snd (Mode (HsError (-1)) parse s) <> None.
Proof.
  intros s parse.
  apply (proj2 (Mode_ok_Version_ok (HsError (-1)) parse) s
           (lit "5.4.0") (lit "AVX2") (lit "TURBO")).
  - split; [reflexivity|]. split; [|split].
    + exists (lit "5"), (lit "4"), (lit "0").
      repeat split; try discriminate; reflexivity.
    + reflexivity.
    + split; [discriminate | reflexivity].
  - discriminate.
Defined.

(* ================================================================== *)
(** ** The wrappers over any C layer *)
(* ================================================================== *)

Section WrapperFacts.

Context {api : HsApi} {layers : Layers}.

Lemma UnmarshalDatabase_cases data w :
  match hsDeserializeDatabase data (hs w) with
  | (h, Some e, m) =>
      UnmarshalDatabase data w = Some (None, Some e, World (heap w) m)
  | (h, None, m) =>
      exists d, heap w !! d = None /\
        UnmarshalDatabase data w
        = Some (Some d, None, World (<[d := {| db := h |}]> (heap w)) m)
  end.
Proof.
  unfold UnmarshalDatabase, bind, foreign.
  destruct (hsDeserializeDatabase data (hs w)) as [[h [e|]] m]; simpl.
  - reflexivity.
  - exists (fresh (dom (heap w))). split; [|reflexivity].
    apply not_elem_of_dom. apply is_fresh.
Qed.

Lemma UnmarshalBlockDatabase_cases data w :
  match hsDeserializeDatabase data (hs w) with
  | (h, Some e, m) =>
      UnmarshalBlockDatabase data w = Some (None, Some e, World (heap w) m)
  | (h, None, m) =>
      exists d b, heap w !! d = None /\
        UnmarshalBlockDatabase data w
        = Some (Some b, None, World (<[d := {| db := h |}]> (heap w)) m)
  end.
Proof.
  unfold UnmarshalBlockDatabase, newBlockDatabase, newBaseDatabase, bind, foreign.
  destruct (hsDeserializeDatabase data (hs w)) as [[h [e|]] m]; simpl.
  - reflexivity.
  - exists (fresh (dom (heap w))). eexists. split; [|reflexivity].
    apply not_elem_of_dom. apply is_fresh.
Qed.

Lemma UnmarshalStreamDatabase_cases data w :
  match hsDeserializeDatabase data (hs w) with
  | (h, Some e, m) =>
      UnmarshalStreamDatabase data w = Some (None, Some e, World (heap w) m)
  | (h, None, m) =>
      exists d b, heap w !! d = None /\
        UnmarshalStreamDatabase data w
        = Some (Some b, None, World (<[d := {| db := h |}]> (heap w)) m)
  end.
Proof.
  unfold UnmarshalStreamDatabase, newStreamDatabase, newBaseDatabase, bind, foreign.
  destruct (hsDeserializeDatabase data (hs w)) as [[h [e|]] m]; simpl.
  - reflexivity.
  - exists (fresh (dom (heap w))). eexists. split; [|reflexivity].
    apply not_elem_of_dom. apply is_fresh.
Qed.

Lemma UnmarshalVectoredDatabase_cases data w :
  match hsDeserializeDatabase data (hs w) with
  | (h, Some e, m) =>
      UnmarshalVectoredDatabase data w = Some (None, Some e, World (heap w) m)
  | (h, None, m) =>
      exists d b, heap w !! d = None /\
        UnmarshalVectoredDatabase data w
        = Some (Some b, None, World (<[d := {| db := h |}]> (heap w)) m)
  end.
Proof.
  unfold UnmarshalVectoredDatabase, newVectoredDatabase, newBaseDatabase, bind,
    foreign.
  destruct (hsDeserializeDatabase data (hs w)) as [[h [e|]] m]; simpl.
  - reflexivity.
  - exists (fresh (dom (heap w))). eexists. split; [|reflexivity].
    apply not_elem_of_dom. apply is_fresh.
Qed.

(** C6: each of the four constructors returns a database exactly when it
    returns no error; its error is the one the deserialization of the C
    layer reports, and with an error it returns nil and has put no database
    object in the Go heap. *)
Theorem Unmarshal_result_atomic (data : bytes) (w : world) :
  atomic (UnmarshalDatabase data w) data w
  /\ atomic (UnmarshalBlockDatabase data w) data w
  /\ atomic (UnmarshalStreamDatabase data w) data w
  /\ atomic (UnmarshalVectoredDatabase data w) data w.
Proof.
  pose proof (UnmarshalDatabase_cases data w) as H0.
  pose proof (UnmarshalBlockDatabase_cases data w) as H1.
  pose proof (UnmarshalStreamDatabase_cases data w) as H2.
  pose proof (UnmarshalVectoredDatabase_cases data w) as H3.
  unfold atomic.
  destruct (hsDeserializeDatabase data (hs w)) as [[h [e|]] m]; simpl.
  - repeat split;
      (eexists _, _, _; split; [eassumption|]; simpl;
       repeat split; try congruence; auto).
  - destruct H0 as (d0 & _ & H0). destruct H1 as (d1 & b1 & _ & H1).
    destruct H2 as (d2 & b2 & _ & H2). destruct H3 as (d3 & b3 & _ & H3).
    repeat split;
      (eexists _, _, _; split; [eassumption|]; simpl;
       repeat split; try congruence; auto).
Qed.

(** C9: the three typed constructors make no check of their own: run on the
    same bytes in the same world they return the same error, the one of the
    deserialization of the C layer, and without an error each returns a
    database. *)
Theorem typed_Unmarshal_agree (data : bytes) (w : world) :
  exists b s v err w1 w2 w3,
    UnmarshalBlockDatabase data w = Some (b, err, w1)
    /\ UnmarshalStreamDatabase data w = Some (s, err, w2)
    /\ UnmarshalVectoredDatabase data w = Some (v, err, w3)
    /\ err = snd (fst (hsDeserializeDatabase data (hs w)))
    /\ (err = None -> b <> None /\ s <> None /\ v <> None).
Proof.
  pose proof (UnmarshalBlockDatabase_cases data w) as H1.
  pose proof (UnmarshalStreamDatabase_cases data w) as H2.
  pose proof (UnmarshalVectoredDatabase_cases data w) as H3.
  destruct (hsDeserializeDatabase data (hs w)) as [[h [e|]] m]; simpl.
  - eexists _, _, _, _, _, _, _. repeat split; try eassumption; discriminate.
  - destruct H1 as (d1 & b1 & _ & H1). destruct H2 as (d2 & b2 & _ & H2).
    destruct H3 as (d3 & b3 & _ & H3).
    eexists _, _, _, _, _, _, _. repeat split; try eassumption; discriminate.
Qed.

(** C7: [d.Unmarshal(data)] is the deserialization of the C layer at the
    handle [d.db]: it returns that call's error, leaves the Go heap as it is
    (no database object is allocated, and no field of [d] is assigned), and
    [Db()] returns the same handle after it as before. *)
Theorem Unmarshal_in_place (d : loc) (data : bytes) (w : world)
    (b : baseDatabase) :
  heap w !! d = Some b ->
  let r := hsDeserializeDatabaseAt data (db b) (hs w) in
  let w' := World (heap w) (snd r) in
  Unmarshal d data w = Some (fst r, w')
  /\ Db d w = Some (db b, w)
  /\ Db d w' = Some (db b, w').
Proof.
  intros H r w'. unfold Unmarshal, Db, bind, load, foreign, ret. simpl.
  rewrite H. subst r w'.
  destruct (hsDeserializeDatabaseAt data (db b) (hs w)) as [err m]; simpl.
  destruct w; auto.
Qed.

End WrapperFacts.

(* ================================================================== *)
(** ** The wrappers over the C layer of the specification *)
(* ================================================================== *)

Section SpecFacts.

Variable artifact : Type.
Variable info_of : artifact -> gostring.
Variable size_of : artifact -> Z.
Variable encode : artifact -> bytes.
Variable decode : bytes -> artifact + error.
Variable released : error.

Local Abbreviation api :=
  (SpecModel.spec_api artifact info_of size_of encode decode released).

(** In the C layer of the specification, [Unmarshal] opens no handle: the
    live handles are the same after it, and when it returns no error the
    handle of [d] holds the artifact decoded from the bytes. *)
Lemma Unmarshal_storage (d : loc) (data : bytes) (w : @world api) b :
  heap w !! d = Some b ->
  exists err w', Unmarshal d data w = Some (err, w')
    /\ dom (hs w' : gmap N artifact) = dom (hs w : gmap N artifact)
    /\ (err = None ->
        exists a, decode data = inl a
                  /\ (hs w' : gmap N artifact) !! (db b : N) = Some a).
Proof.
  intros Hd. unfold Unmarshal, bind, load, foreign. rewrite Hd. simpl.
  unfold SpecModel.deserialize_at.
  destruct ((hs w : gmap N artifact) !! (db b : N)) as [a0|] eqn:Ha.
  - destruct (decode data) as [a|e] eqn:Hdec.
    + eexists _, _. split; [reflexivity|]. simpl. split.
      * rewrite dom_insert_L. apply subseteq_union_1_L.
        apply singleton_subseteq_l. apply (elem_of_dom_2 _ _ _ Ha).
      * intros _. exists a. split; [reflexivity | apply lookup_insert_eq].
    + eexists _, _. split; [reflexivity|]. simpl. split; [reflexivity|].
      discriminate.
  - eexists _, _. split; [reflexivity|]. simpl. split; [reflexivity|].
    discriminate.
Qed.

End SpecFacts.

(* ================================================================== *)
(** ** The wrappers run on the small instance *)
(* ================================================================== *)

Example unmarshal_bad_bytes :
  UnmarshalDatabase (api := Example.api) [Byte.x02] Example.world1
  = Some (None, Some (HsError (-1)), Example.world1).
Proof. reflexivity. Qed.

Example marshal_world1 :
  Marshal (api := Example.api) 1%positive Example.world1
  = Some ([Byte.x01; Byte.x61; Byte.x62], None, Example.world1).
Proof. reflexivity. Qed.

Example marshal_dangling :
  Marshal (api := Example.api) 2%positive Example.world1 = None.
Proof. reflexivity. Qed.

Lemma Unmarshal_in_place_witness :
  let data := [Byte.x01; Byte.x63] in
  let r := hsDeserializeDatabaseAt (HsApi := Example.api) data 1%N
             (hs Example.world1) in
  let w' := @World Example.api (heap Example.world1) (snd r) in
  Unmarshal 1%positive data Example.world1 = Some (fst r, w')
  /\ Db 1%positive Example.world1 = Some (1%N, Example.world1)
  /\ Db 1%positive w' = Some (1%N, w').
Proof.
  apply (Unmarshal_in_place (api := Example.api) 1%positive
           [Byte.x01; Byte.x63] Example.world1 Example.base1).
  reflexivity.
Defined.


(* ================================================================== *)
(** ** More on [regexInfo], [Version] and [Mode] *)
(* ================================================================== *)

Section DescriptorShape.

Lemma length_nonempty (w : gostring) : w <> [] -> 1 <= length w.
Proof. destruct w; [congruence | simpl; lia]. Qed.

Lemma semver_length v : semver v -> 5 <= length v.
Proof.
  intros (x & y & z & -> & [Hx _] & [Hy _] & [Hz _]).
  apply length_nonempty in Hx, Hy, Hz.
  rewrite length_app. simpl. rewrite length_app. simpl. lia.
Qed.

Lemma descriptor_length s v f m :
  descriptor s v f m -> min_descriptor_length <= length s.
Proof.
  intros (-> & Hv & _ & [Hm _]).
  apply semver_length in Hv. apply length_nonempty in Hm.
  rewrite !length_app. unfold min_descriptor_length. simpl. lia.
Qed.

Lemma descriptor_chars s v f m :
  descriptor s v f m -> forallb descriptor_char s = true.
Proof.
  intros (-> & Hv & Hf & [_ Hm]).
  apply semver_digit_or_dot in Hv.
  rewrite !forallb_app. repeat (apply andb_true_intro; split);
    try reflexivity.
  - revert Hv. apply forallb_weaken. intros c. unfold digit_or_dot,
      descriptor_char, is_word_or_space, is_word, is_digit.
    intros H. apply orb_prop in H. destruct H as [H | H]; rewrite H;
      rewrite ?orb_true_r; reflexivity.
  - revert Hf. apply forallb_weaken. intros c H. unfold descriptor_char.
    rewrite H. reflexivity.
  - revert Hm. apply forallb_weaken. intros c H.
    unfold descriptor_char, is_word_or_space. rewrite H. reflexivity.
Qed.

(** The last character of a descriptor is the last one of its mode word. *)
Lemma descriptor_last s c v f m :
  descriptor (s ++ [c]) v f m -> is_word c = true.
Proof.
  intros (E & _ & _ & [Hne Hm]).
  destruct (exists_last Hne) as (m' & x & ->).
  rewrite !app_assoc in E. apply app_inj_tail in E. destruct E as [_ ->].
  rewrite forallb_app in Hm. apply andb_prop in Hm. destruct Hm as [_ Hm].
  simpl in Hm. apply andb_prop in Hm. apply Hm.
Qed.

End DescriptorShape.

Section DbInfoMore.

Variable ErrInvalid : error.
Variable ParseModeFlag : gostring -> ModeFlag * option error.

Lemma Errorf_not_wrapped p e : error_eqb (Errorf p e) e = false.
Proof.
  revert p. induction e as [c | q w IH]; intros p; simpl.
  - reflexivity.
  - specialize (IH q). simpl in IH. rewrite IH. apply andb_false_r.
Qed.

Lemma Version_cases s :
  Version ErrInvalid s = ([], Some (Errorf "database info, " ErrInvalid))
  \/ exists v f m, descriptor s v f m /\ Version ErrInvalid s = (v, None).
Proof.
  destruct (well_formed_dec s) as [(v & f & m & D) | N].
  - right. exists v, f, m. split; [exact D|].
    apply (Version_descriptor _ s v f m D).
  - left. apply Version_garbage; exact N.
Qed.

End DbInfoMore.

(** X1: the match of [regexInfo] on a string is nil, or it has the
    [infoMatches] elements [s; v; f; m] of the one reading of [s] as a
    descriptor: the length test of [Version] and [Mode] rejects exactly the
    strings without a match. *)
Theorem regexInfo_match_total (s : gostring) :
  (FindStringSubmatch regexInfo s = [] /\ ~ well_formed s)
  \/ (exists v f m, descriptor s v f m
        /\ FindStringSubmatch regexInfo s = [s; v; f; m]
        /\ length (FindStringSubmatch regexInfo s) = infoMatches).
Proof.
  destruct (well_formed_dec s) as [(v & f & m & D) | N].
  - right. exists v, f, m. split; [exact D|].
    rewrite (FindStringSubmatch_descriptor s v f m D). auto.
  - left. split; [apply FindStringSubmatch_garbage|]; exact N.
Qed.

(** X2: a version that [Version()] returns without error is three runs of
    digits separated by dots, and it stands in the text right after
    [Version: ] and right before [ Features: ]. *)
Theorem Version_result_shape (ErrInvalid : error) (s v : gostring) :
  Version ErrInvalid s = (v, None) ->
  semver v
  /\ exists tl, s = lit "Version: " ++ v ++ lit " Features: " ++ tl.
Proof.
  intros E. destruct (Version_cases ErrInvalid s) as [F | (v' & f & m & D & F)];
    rewrite F in E; [discriminate|].
  injection E as ->. destruct D as (-> & Hv & _). split; [exact Hv|].
  eexists. reflexivity.
Qed.

Lemma Version_result_shape_witness :
  semver (lit "5.4.0")
  /\ exists tl, lit "Version: 5.4.0 Features: AVX2 Mode: STREAM"
                = lit "Version: " ++ lit "5.4.0" ++ lit " Features: " ++ tl.
Proof.
  apply (Version_result_shape (HsError (-1))
           (lit "Version: 5.4.0 Features: AVX2 Mode: STREAM") (lit "5.4.0")).
  vm_compute. reflexivity.
Defined.

(** X3: [Mode()] returns the Invalid error of the failed match, or it
    returns what [ParseModeFlag] returns, error included and not wrapped,
    for the mode word: a non-empty run of word characters at the end of the
    text.  [ParseModeFlag] is never called on anything else. *)
Theorem Mode_cases
    (ErrInvalid : error) (ParseModeFlag : gostring -> ModeFlag * option error)
    (s : gostring) :
  (Mode ErrInvalid ParseModeFlag s
   = (0%N, Some (Errorf "database info, " ErrInvalid))
   /\ ~ well_formed s)
  \/ (exists pre m, s = pre ++ lit " Mode: " ++ m /\ word m
        /\ Mode ErrInvalid ParseModeFlag s = ParseModeFlag m).
Proof.
  destruct (well_formed_dec s) as [(v & f & m & D) | N].
  - right. exists (lit "Version: " ++ v ++ lit " Features: " ++ f), m.
    split; [|split].
    + destruct D as (-> & _). rewrite <- !app_assoc. reflexivity.
    + apply D.
    + apply (Mode_descriptor _ _ s v f m D).
  - left. split; [apply Mode_garbage|]; exact N.
Qed.

(** X4: a text shorter than the shortest descriptor, the empty text among
    them, makes [Version()] and [Mode()] fail with the Invalid error; the
    bound is reached. *)
Theorem short_text_invalid
    (ErrInvalid : error) (ParseModeFlag : gostring -> ModeFlag * option error) :
  (forall s, length s < min_descriptor_length ->
     Version ErrInvalid s = ([], Some (Errorf "database info, " ErrInvalid))
     /\ Mode ErrInvalid ParseModeFlag s
        = (0%N, Some (Errorf "database info, " ErrInvalid)))
  /\ (exists s, length s = min_descriptor_length
                /\ Version ErrInvalid s = (lit "0.0.0", None)).
Proof.
  split.
  - intros s Hs.
    assert (N : ~ well_formed s).
    { intros (v & f & m & D). apply descriptor_length in D. lia. }
    split; [apply Version_garbage | apply Mode_garbage]; exact N.
  - exists (lit "Version: 0.0.0 Features:  Mode: X"). split; [reflexivity|].
    apply (Version_descriptor _ _ (lit "0.0.0") [] (lit "X")).
    split; [reflexivity|]. split; [|split].
    + exists (lit "0"), (lit "0"), (lit "0").
      repeat split; try discriminate; reflexivity.
    + reflexivity.
    + split; [discriminate | reflexivity].
Qed.

Lemma short_text_invalid_witness :
  Version (HsError (-1)) [] = ([], Some (Errorf "database info, " (HsError (-1))))
  /\ Mode (HsError (-1)) (fun _ => (1%N, None)) []
     = (0%N, Some (Errorf "database info, " (HsError (-1)))).
Proof.
  apply (proj1 (short_text_invalid (HsError (-1)) (fun _ => (1%N, None))) []).
  unfold min_descriptor_length. simpl. lia.
Defined.

(** X5: the pattern is anchored at both ends: a text that ends in a
    character that is no word character (a newline, a space, a NUL) is
    rejected whatever comes before, and a descriptor with any character put
    in front of it is rejected. *)
Theorem no_padding (ErrInvalid : error) :
  (forall s c, is_word c = false ->
     Version ErrInvalid (s ++ [c])
     = ([], Some (Errorf "database info, " ErrInvalid)))
  /\ (forall s c, snd (Version ErrInvalid s) = None ->
        Version ErrInvalid (c :: s)
        = ([], Some (Errorf "database info, " ErrInvalid))).
Proof.
  split.
  - intros s c Hc. apply Version_garbage. intros (v & f & m & D).
    apply descriptor_last in D. congruence.
  - intros s c H. apply Version_ok_iff in H. destruct H as (v & f & m & D).
    apply Version_garbage. intros (v' & f' & m' & D').
    destruct D as (-> & _). destruct D' as (E & _).
    simpl in E. injection E as -> E. discriminate.
Qed.

Lemma no_padding_witness :
  Version (HsError (-1))
    (lit "Version: 5.4.0 Features: AVX2 Mode: STREAM" ++ ["010"%char])
  = ([], Some (Errorf "database info, " (HsError (-1))))
  /\ Version (HsError (-1))
       (" "%char :: lit "Version: 5.4.0 Features: AVX2 Mode: STREAM")
     = ([], Some (Errorf "database info, " (HsError (-1)))).
Proof.
  split.
  - apply (proj1 (no_padding (HsError (-1)))). reflexivity.
  - apply (proj2 (no_padding (HsError (-1)))). vm_compute. reflexivity.
Defined.

(** X6: a text with a character that is neither a word character, white
    space, a dot nor a colon (a hyphen, a comma, a byte outside ASCII) makes
    [Version()] and [Mode()] fail with the Invalid error. *)
Theorem foreign_character_invalid
    (ErrInvalid : error) (ParseModeFlag : gostring -> ModeFlag * option error)
    (s : gostring) (c : ascii) :
  In c s -> descriptor_char c = false ->
  Version ErrInvalid s = ([], Some (Errorf "database info, " ErrInvalid))
  /\ Mode ErrInvalid ParseModeFlag s
     = (0%N, Some (Errorf "database info, " ErrInvalid)).
Proof.
  intros Hin Hc.
  assert (N : ~ well_formed s).
  { intros (v & f & m & D). apply descriptor_chars in D.
    rewrite forallb_forall in D. specialize (D c Hin). congruence. }
  split; [apply Version_garbage | apply Mode_garbage]; exact N.
Qed.

Lemma foreign_character_invalid_witness :
  let s := lit "Version: 5.4.0-rc1 Features: AVX2 Mode: STREAM" in
  Version (HsError (-1)) s
  = ([], Some (Errorf "database info, " (HsError (-1))))
  /\ Mode (HsError (-1)) (fun _ => (1%N, None)) s
     = (0%N, Some (Errorf "database info, " (HsError (-1)))).
Proof.
  intros s.
  apply (foreign_character_invalid (HsError (-1)) (fun _ => (1%N, None)) s
           "-"%char).
  - vm_compute. do 14 right. left. reflexivity.
  - reflexivity.
Defined.

(** X7: an error of [Version()] is [ErrInvalid] wrapped, never [ErrInvalid]
    itself: comparing it with [ErrInvalid] by [==] fails where [errors.Is]
    succeeds, and its text is [database info, ] followed by the text of
    [ErrInvalid]. *)
Theorem Version_error_wrapped (ErrInvalid : error) (s : gostring) (e : error) :
  snd (Version ErrInvalid s) = Some e ->
  error_eqb e ErrInvalid = false
  /\ Is e ErrInvalid = true
  /\ (forall hs_text,
        Error hs_text e
        = ("database info, " ++ Error hs_text ErrInvalid)%string)
  /\ fst (Version ErrInvalid s) = [].
Proof.
  intros E.
  destruct (Version_cases ErrInvalid s) as [F | (v' & f & m & D & F)];
    rewrite F in E |- *; simpl in E; [|discriminate].
  injection E as <-. split; [apply Errorf_not_wrapped|].
  split; [apply Is_Errorf|]. split; [reflexivity | reflexivity].
Qed.

Lemma Version_error_wrapped_witness :
  let e := Errorf "database info, " (HsError (-1)) in
  error_eqb e (HsError (-1)) = false
  /\ Is e (HsError (-1)) = true
  /\ (forall hs_text,
        Error hs_text e
        = ("database info, " ++ Error hs_text (HsError (-1)))%string)
  /\ fst (Version (HsError (-1)) (lit "garbage")) = [].
Proof.
  intros e.
  apply (Version_error_wrapped (HsError (-1)) (lit "garbage") e).
  vm_compute. reflexivity.
Defined.

(* ================================================================== *)
(** ** More on the wrappers, over any C layer *)
(* ================================================================== *)

Section WrapperMore.

Context {api : HsApi} {layers : Layers}.

Lemma Db_live (d : loc) (w : world) b :
  heap w !! d = Some b -> Db d w = Some (db b, w).
Proof. intros H. unfold Db, bind, load, ret. rewrite H. reflexivity. Qed.

(** X9: a database that [UnmarshalDatabase] returns is a new object: its
    address was not in use, its handle is the one the C layer returned, and
    every database that existed keeps its handle.  A second call therefore
    returns an address other than the first, whose handle stays. *)
Theorem UnmarshalDatabase_fresh
    (data : bytes) (w w' : world) (d : loc) (err : option error) :
  UnmarshalDatabase data w = Some (Some d, err, w') ->
  err = None
  /\ heap w !! d = None
  /\ Db d w' = Some (fst (fst (hsDeserializeDatabase data (hs w))), w')
  /\ (forall d0 b0, heap w !! d0 = Some b0 -> Db d0 w' = Some (db b0, w'))
  /\ (forall data2 d2 err2 w2,
        UnmarshalDatabase data2 w' = Some (Some d2, err2, w2) ->
        d2 <> d
        /\ Db d w2 = Some (fst (fst (hsDeserializeDatabase data (hs w))), w2)).
Proof.
  assert (G : forall dat v v' x er,
            UnmarshalDatabase dat v = Some (Some x, er, v') ->
            er = None /\ heap v !! x = None
            /\ heap v' = <[x := {| db := fst (fst (hsDeserializeDatabase dat (hs v))) |}]>
                           (heap v)).
  { intros dat v v' x er U.
    pose proof (UnmarshalDatabase_cases dat v) as C.
    destruct (hsDeserializeDatabase dat (hs v)) as [[h [e|]] m]; simpl.
    - rewrite C in U. discriminate.
    - destruct C as (x' & Hx & C). rewrite C in U.
      injection U as <- <- <-. auto. }
  intros U. destruct (G _ _ _ _ _ U) as (-> & Hd & Hw').
  split; [reflexivity|]. split; [exact Hd|].
  assert (Hdb : heap w' !! d
                = Some {| db := fst (fst (hsDeserializeDatabase data (hs w))) |})
    by (rewrite Hw'; apply lookup_insert_eq).
  assert (Hold : forall d0 b0, heap w !! d0 = Some b0 -> heap w' !! d0 = Some b0).
  { intros d0 b0 H0. rewrite Hw'. rewrite lookup_insert_ne; [exact H0|].
    intros ->. congruence. }
  split; [apply (Db_live d w' _ Hdb)|].
  split; [intros d0 b0 H0; apply Db_live; auto|].
  intros data2 d2 err2 w2 U2. destruct (G _ _ _ _ _ U2) as (_ & Hd2 & Hw2).
  assert (Hne : d2 <> d) by (intros ->; congruence).
  split; [exact Hne|].
  apply (Db_live d w2 {| db := fst (fst (hsDeserializeDatabase data (hs w))) |}).
  rewrite Hw2, lookup_insert_ne; auto.
Qed.

(** No method of [baseDatabase], and neither of the two functions on
    serialized bytes, touches the Go heap: whatever the C layer does, after
    each of them every database has the handle it had. *)
Lemma methods_keep_heap (d : loc) (data : bytes) (w : world)
    (b : baseDatabase) :
  heap w !! d = Some b ->
  (exists r m, Size d w = Some (r, World (heap w) m))
  /\ (exists r m, Info d w = Some (r, World (heap w) m))
  /\ (exists r m, Close d w = Some (r, World (heap w) m))
  /\ (exists r m, Marshal d w = Some (r, World (heap w) m))
  /\ (exists r m, Unmarshal d data w = Some (r, World (heap w) m))
  /\ (exists r m, SerializedDatabaseSize data w = Some (r, World (heap w) m))
  /\ (exists r m, SerializedDatabaseInfo data w = Some (r, World (heap w) m)).
Proof.
  intros H.
  unfold Size, Info, Close, Marshal, Unmarshal, SerializedDatabaseSize,
    SerializedDatabaseInfo, bind, load, foreign, ret.
  rewrite H.
  destruct (hsDatabaseSize (db b) (hs w)) as [r1 m1].
  destruct (hsDatabaseInfo (db b) (hs w)) as [[i2 e2] m2].
  destruct (hsFreeDatabase (db b) (hs w)) as [r3 m3].
  destruct (hsSerializeDatabase (db b) (hs w)) as [r4 m4].
  destruct (hsDeserializeDatabaseAt data (db b) (hs w)) as [r5 m5].
  destruct (hsSerializedDatabaseSize data (hs w)) as [r6 m6].
  destruct (hsSerializedDatabaseInfo data (hs w)) as [[i7 e7] m7].
  simpl. repeat split; eexists _, _; reflexivity.
Qed.

(** X10: [Close()] frees the database in the C layer and keeps the handle
    in the Go object: [Db()] returns it as before, a second [Close()] frees
    the same handle again, and a [Marshal()] after it serializes from the
    freed handle; the wrapper has no guard of its own against either. *)
Theorem use_after_Close (d : loc) (w : world) (b : baseDatabase) :
  heap w !! d = Some b ->
  let w1 := World (heap w) (snd (hsFreeDatabase (db b) (hs w))) in
  Close d w = Some (fst (hsFreeDatabase (db b) (hs w)), w1)
  /\ Db d w1 = Some (db b, w1)
  /\ Close d w1
     = Some (fst (hsFreeDatabase (db b) (hs w1)),
             World (heap w) (snd (hsFreeDatabase (db b) (hs w1))))
  /\ Marshal d w1
     = Some (fst (hsSerializeDatabase (db b) (hs w1)),
             World (heap w) (snd (hsSerializeDatabase (db b) (hs w1)))).
Proof.
  intros H w1.
  unfold Close, Marshal, Db, bind, load, foreign, ret. subst w1. simpl.
  rewrite H.
  destruct (hsFreeDatabase (db b) (hs w)) as [r1 m1]. simpl.
  destruct (hsFreeDatabase (db b) m1) as [r2 m2].
  destruct (hsSerializeDatabase (db b) m1) as [r3 m3].
  simpl. auto.
Qed.

End WrapperMore.

Lemma UnmarshalDatabase_fresh_witness :
  let data := [Byte.x01; Byte.x63] in
  let w := Example.world1 in
  let d := fresh (dom (heap w)) in
  let h := fresh ({[0%N]} ∪ dom (hs w : gmap N Example.artifact)) in
  let w' := @World Example.api
              (<[d := @Build_baseDatabase Example.api h]> (heap w))
              (<[h := [Byte.x63]]> (hs w : gmap N Example.artifact)) in
  @None error = None
  /\ heap w !! d = None
  /\ Db d w' = Some (fst (fst (hsDeserializeDatabase data (hs w))), w')
  /\ (forall d0 b0, heap w !! d0 = Some b0 -> Db d0 w' = Some (db b0, w'))
  /\ (forall data2 d2 err2 w2,
        UnmarshalDatabase data2 w' = Some (Some d2, err2, w2) ->
        d2 <> d
        /\ Db d w2 = Some (fst (fst (hsDeserializeDatabase data (hs w))), w2)).
Proof.
  intros data w d h w'.
  apply (UnmarshalDatabase_fresh (api := Example.api) data w w' d None).
  reflexivity.
Defined.

Lemma use_after_Close_witness :
  let w := Example.world1 in
  let b := Example.base1 in
  let w1 := @World Example.api (heap w) (snd (hsFreeDatabase (db b) (hs w))) in
  Close 1%positive w = Some (fst (hsFreeDatabase (db b) (hs w)), w1)
  /\ Db 1%positive w1 = Some (db b, w1)
  /\ Close 1%positive w1
     = Some (fst (hsFreeDatabase (db b) (hs w1)),
             World (heap w) (snd (hsFreeDatabase (db b) (hs w1))))
  /\ Marshal 1%positive w1
     = Some (fst (hsSerializeDatabase (db b) (hs w1)),
             World (heap w) (snd (hsSerializeDatabase (db b) (hs w1)))).
Proof.
  apply (use_after_Close (api := Example.api) 1%positive Example.world1
           Example.base1).
  reflexivity.
Defined.
